(** * UM-KM-StringCrypt: the key generator and the byte transform

A shallow embedding of the two headers of the repository,
[secure_string.hpp] and [SecureString.hpp], and the properties of
their key generator ([KeyGen]) and of [SecureString]'s
[obfuscate] / [deobfuscate] / constructor / [decrypt].

Integers are [Z] with the wrap-around of their C++ type written out.
An operation that C++ leaves undefined for some operands (a shift by
a count outside the width, a signed overflow, a remainder by zero, an
array access out of bounds) returns [None] there, so that the absence
of faults is a theorem and not an assumption.  Shifts and remainders
whose right operand is a literal ([>> 33], [% 8], [% 7]) cannot fault
and are written with the plain [Z] operation. *)

From Stdlib Require Import ZArith List Lia Bool Permutation Finite.
Import ListNotations.
Local Open Scope Z_scope.

(** ** The failure monad *)

Definition bind {A B : Type} (m : option A) (k : A -> option B) : option B :=
  match m with
  | Some a => k a
  | None => None
  end.

Notation "x <- m ;; k" := (bind m (fun x => k))
  (at level 61, m at next level, right associativity).

(** ** Fixed-width integer types *)

(** [unsigned __int64], [unsigned long long] and [uint64_t]: arithmetic
    modulo [2^64]. *)
Module U64.
Definition modulus : Z := 2 ^ 64.
Definition wrap (x : Z) : Z := x mod modulus.
Definition add (a b : Z) : Z := wrap (a + b).
Definition sub (a b : Z) : Z := wrap (a - b).
Definition mul (a b : Z) : Z := wrap (a * b).
Definition shl (a s : Z) : option Z :=
  if (0 <=? s) && (s <? 64) then Some (wrap (Z.shiftl a s)) else None.
Definition shr (a s : Z) : option Z :=
  if (0 <=? s) && (s <? 64) then Some (Z.shiftr a s) else None.
Definition rem (a b : Z) : option Z :=
  if b =? 0 then None else Some (a mod b).
Definition in_range (x : Z) : Prop := 0 <= x < modulus.
End U64.

(** [size_t] of [SecureString.hpp], at the width it has on the x64
    targets the headers are written for (the width [secure_string.hpp]
    spells out as [unsigned __int64]). *)
Module Size_t.
Definition add (a b : Z) : Z := U64.wrap (a + b).
Definition sub (a b : Z) : Z := U64.wrap (a - b).
Definition mul (a b : Z) : Z := U64.wrap (a * b).
Definition rem (a b : Z) : option Z :=
  if b =? 0 then None else Some (a mod b).
End Size_t.

(** [int], the 32-bit signed type that [unsigned char] operands are
    promoted to: an overflow is a fault, not a wrap. *)
Module Int.
Definition representable (x : Z) : bool :=
  (- 2 ^ 31 <=? x) && (x <? 2 ^ 31).
Definition checked (x : Z) : option Z :=
  if representable x then Some x else None.
Definition add (a b : Z) : option Z := checked (a + b).
Definition sub (a b : Z) : option Z := checked (a - b).
Definition shl (a s : Z) : option Z :=
  if (0 <=? s) && (s <? 32) && (0 <=? a)
  then checked (Z.shiftl a s) else None.
Definition shr (a s : Z) : option Z :=
  if (0 <=? s) && (s <? 32) then Some (Z.shiftr a s) else None.
End Int.

(** Conversion to [unsigned char] / [uint8_t]: the low 8 bits. *)
Definition to_uchar (x : Z) : Z := x mod 256.

Definition is_byte (x : Z) : Prop := 0 <= x < 256.

(** The code-unit types [SecureString] is instantiated with by [ENC_STR]
    and [ENC_WSTR].  A code unit is represented by its bit pattern, a
    number below [2 ^ bits]: the conversions between [char] and
    [unsigned char] keep the pattern, and the one from [unsigned char] to
    [wchar_t] zero-extends it. *)
Inductive CharT : Type := char | wchar_t.

Definition bits (T : CharT) : Z :=
  match T with
  | char => 8
  | wchar_t => 16
  end.

(** [static_cast<CharT>]. *)
Definition to_CharT (T : CharT) (x : Z) : Z := x mod 2 ^ bits T.

Definition is_CharT (T : CharT) (x : Z) : Prop := 0 <= x < 2 ^ bits T.

(** ** Arrays *)

Definition load (a : list Z) (i : Z) : option Z :=
  if 0 <=? i then nth_error a (Z.to_nat i) else None.

Fixpoint update (a : list Z) (n : nat) (v : Z) : list Z :=
  match a, n with
  | [], _ => []
  | _ :: t, O => v :: t
  | h :: t, S m => h :: update t m v
  end.

Definition store (a : list Z) (i : Z) (v : Z) : option (list Z) :=
  if (0 <=? i) && (i <? Z.of_nat (length a))
  then Some (update a (Z.to_nat i) v) else None.

(** [for (i = first; i < N; ++i) body], with the loop state threaded
    through the body; [fuel] bounds the number of iterations. *)
Fixpoint for_loop {S : Type} (fuel : nat) (N i : Z)
    (body : Z -> S -> option S) (s : S) : option S :=
  if i <? N then
    match fuel with
    | O => None
    | Datatypes.S fuel' =>
        s' <- body i s ;; for_loop fuel' N (U64.add i 1) body s'
    end
  else Some s.

(** What the object and a caller's destination buffer hold. *)
Record Memory : Type := mkMemory {
  encrypted : list Z;
  out : list Z
}.

(** ** secure_string.hpp *)

Module secure_string_hpp.

(** [ROL8(x, r)] where [x] has type [unsigned __int64]. *)
Definition ROL8_u64 (x r : Z) : option Z :=
  l <- U64.shl x (r mod 8) ;;
  h <- U64.shr x (8 - r mod 8) ;;
  Some (to_uchar (Z.lor l h)).

(** [ROL8(x, r)] where [x] is an [unsigned char], promoted to [int]. *)
Definition ROL8 (x r : Z) : option Z :=
  l <- Int.shl x (r mod 8) ;;
  h <- Int.shr x (8 - r mod 8) ;;
  Some (to_uchar (Z.lor l h)).

(** [ROR8(x, r)] where [x] is an [unsigned char], promoted to [int]. *)
Definition ROR8 (x r : Z) : option Z :=
  l <- Int.shr x (r mod 8) ;;
  h <- Int.shl x (8 - r mod 8) ;;
  Some (to_uchar (Z.lor l h)).

Module KeyGen.

Definition mix (x : Z) : Z :=
  let x := Z.lxor x (Z.shiftr x 33) in
  let x := U64.mul x 0xD6E8FEB86659FD93 in
  let x := Z.lxor x (Z.shiftr x 33) in
  let x := U64.mul x 0xA5CB3E2C1F16F4C5 in
  Z.lxor x (Z.shiftr x 33).

(** [val] of [get_byte] after its second assignment: the mixed
    64-bit value with the round folded in. *)
Definition mixed (Seed Round index : Z) : Z :=
  let magic := 0x3C6EF372FE94F82B in
  let val := Z.lxor Seed (U64.mul index magic) in
  Z.lxor (mix val) (U64.mul Round 0x0F1E2D3C4B5A6978).

(** [val] after its third assignment: the 32-bit value that the
    return expression folds. *)
Definition folded (Seed Round index : Z) : Z :=
  let val := mixed Seed Round index in
  Z.lxor (Z.shiftr val 32) (Z.land val 0xFFFFFFFF).

Definition get_byte (Seed Round index : Z) : Z :=
  let val := folded Seed Round index in
  to_uchar (Z.lxor (Z.lxor val (Z.shiftr val 16)) (Z.shiftr val 8)).

(** The rotation count [get] passes to [ROL8]. *)
Definition rotation (Round index : Z) : Z :=
  U64.add (U64.add index Round mod 8) 1.

(** The value [get] rotates: [k ^ index ^ (Seed & 0xFF)]. *)
Definition combined (N Seed Round index : Z) : Z :=
  let k :=
    to_uchar (Z.lxor (get_byte Seed Round index)
                (get_byte Seed Round
                   (U64.add (U64.sub (U64.sub N index) 1) Round))) in
  Z.lxor (Z.lxor k index) (Z.land Seed 0xFF).

Definition get (N Seed Round index : Z) : option Z :=
  ROL8_u64 (combined N Seed Round index) (rotation Round index).

End KeyGen.

Module SecureString.

Definition obfuscate (T : CharT) (N Seed c i : Z) : option Z :=
  k1 <- KeyGen.get N Seed 0 i ;;
  k2 <- KeyGen.get N (Z.lxor Seed 0xBAADF00DDEADC0DE) 0
          (U64.sub (U64.sub N i) 1) ;;
  j <- U64.rem (U64.mul i i) N ;;
  k3 <- KeyGen.get N (Z.lxor Seed 0xFEEDBABECAFED00D) 0 j ;;
  let tmp := to_uchar (Z.lxor (to_uchar c) k1) in
  tmp <- ROL8 tmp (k2 mod 7 + 1) ;;
  s <- Int.add tmp (Z.lxor k2 k3) ;;
  let tmp := to_uchar (Z.lnot s) in
  let tmp := to_uchar (Z.lxor tmp 0xA5) in
  tmp <- ROR8 tmp (U64.add i k3 mod 8) ;;
  Some (to_CharT T tmp).

Definition deobfuscate (T : CharT) (N Seed c i : Z) : option Z :=
  k1 <- KeyGen.get N Seed 0 i ;;
  k2 <- KeyGen.get N (Z.lxor Seed 0xBAADF00DDEADC0DE) 0
          (U64.sub (U64.sub N i) 1) ;;
  j <- U64.rem (U64.mul i i) N ;;
  k3 <- KeyGen.get N (Z.lxor Seed 0xFEEDBABECAFED00D) 0 j ;;
  let tmp := to_uchar c in
  tmp <- ROL8 tmp (U64.add i k3 mod 8) ;;
  let tmp := to_uchar (Z.lxor tmp 0xA5) in
  s <- Int.sub (Z.lnot tmp) (Z.lxor k2 k3) ;;
  let tmp := to_uchar s in
  tmp <- ROR8 tmp (k2 mod 7 + 1) ;;
  let tmp := to_uchar (Z.lxor tmp k1) in
  Some (to_CharT T tmp).

(** The constructor: [encrypted{}] and the loop over [input]. *)
Definition ctor (T : CharT) (N Seed : Z) (input : list Z)
  : option (list Z) :=
  for_loop (Z.to_nat N) N 0
    (fun i enc =>
       c <- load input i ;;
       e <- obfuscate T N Seed c i ;;
       store enc i e)
    (repeat 0 (Z.to_nat N)).

Definition decrypt (T : CharT) (N Seed : Z) (m : Memory)
  : option Memory :=
  for_loop (Z.to_nat N) N 0
    (fun i m =>
       e <- load (encrypted m) i ;;
       d <- deobfuscate T N Seed e i ;;
       o <- store (out m) i d ;;
       Some (mkMemory (encrypted m) o))
    m.

Definition size (N : Z) (m : Memory) : Z := N.

End SecureString.

End secure_string_hpp.

(** ** SecureString.hpp *)

Module SecureString_hpp.

(** [ROL8(x, r)] where [x] has type [uint64_t]. *)
Definition ROL8_u64 (x r : Z) : option Z :=
  l <- U64.shl x (r mod 8) ;;
  h <- U64.shr x (8 - r mod 8) ;;
  Some (to_uchar (Z.lor l h)).

(** [ROL8(x, r)] where [x] is a [uint8_t], promoted to [int]. *)
Definition ROL8 (x r : Z) : option Z :=
  l <- Int.shl x (r mod 8) ;;
  h <- Int.shr x (8 - r mod 8) ;;
  Some (to_uchar (Z.lor l h)).

(** [ROR8(x, r)] where [x] is a [uint8_t], promoted to [int]. *)
Definition ROR8 (x r : Z) : option Z :=
  l <- Int.shr x (r mod 8) ;;
  h <- Int.shl x (8 - r mod 8) ;;
  Some (to_uchar (Z.lor l h)).

Module KeyGen.

Definition mix (x : Z) : Z :=
  let x := Z.lxor x (Z.shiftr x 33) in
  let x := U64.mul x 0xD6E8FEB86659FD93 in
  let x := Z.lxor x (Z.shiftr x 33) in
  let x := U64.mul x 0xA5CB3E2C1F16F4C5 in
  Z.lxor x (Z.shiftr x 33).

Definition mixed (Seed Round index : Z) : Z :=
  let magic := 0x3C6EF372FE94F82B in
  let val := Z.lxor Seed (U64.mul index magic) in
  Z.lxor (mix val) (U64.mul Round 0x0F1E2D3C4B5A6978).

Definition folded (Seed Round index : Z) : Z :=
  let val := mixed Seed Round index in
  Z.lxor (Z.shiftr val 32) (Z.land val 0xFFFFFFFF).

Definition get_byte (Seed Round index : Z) : Z :=
  let val := folded Seed Round index in
  to_uchar (Z.lxor (Z.lxor val (Z.shiftr val 16)) (Z.shiftr val 8)).

Definition rotation (Round index : Z) : Z :=
  Size_t.add (Size_t.add index Round mod 8) 1.

Definition combined (N Seed Round index : Z) : Z :=
  let k :=
    to_uchar (Z.lxor (get_byte Seed Round index)
                (get_byte Seed Round
                   (Size_t.add (Size_t.sub (Size_t.sub N index) 1)
                      Round))) in
  Z.lxor (Z.lxor k index) (Z.land Seed 0xFF).

Definition get (N Seed Round index : Z) : option Z :=
  ROL8_u64 (combined N Seed Round index) (rotation Round index).

End KeyGen.

Module SecureString.

Definition obfuscate (T : CharT) (N Seed c i : Z) : option Z :=
  k1 <- KeyGen.get N Seed 0 i ;;
  k2 <- KeyGen.get N (Z.lxor Seed 0xBAADF00DDEADC0DE) 0
          (Size_t.sub (Size_t.sub N i) 1) ;;
  j <- Size_t.rem (Size_t.mul i i) N ;;
  k3 <- KeyGen.get N (Z.lxor Seed 0xFEEDBABECAFED00D) 0 j ;;
  let tmp := to_uchar (Z.lxor (to_uchar c) k1) in
  tmp <- ROL8 tmp (k2 mod 7 + 1) ;;
  s <- Int.add tmp (Z.lxor k2 k3) ;;
  let tmp := to_uchar (Z.lnot s) in
  let tmp := to_uchar (Z.lxor tmp 0x5A) in
  tmp <- ROR8 tmp (Size_t.add i k3 mod 8) ;;
  Some (to_CharT T tmp).

Definition deobfuscate (T : CharT) (N Seed c i : Z) : option Z :=
  k1 <- KeyGen.get N Seed 0 i ;;
  k2 <- KeyGen.get N (Z.lxor Seed 0xBAADF00DDEADC0DE) 0
          (Size_t.sub (Size_t.sub N i) 1) ;;
  j <- Size_t.rem (Size_t.mul i i) N ;;
  k3 <- KeyGen.get N (Z.lxor Seed 0xFEEDBABECAFED00D) 0 j ;;
  let tmp := to_uchar c in
  tmp <- ROL8 tmp (Size_t.add i k3 mod 8) ;;
  let tmp := to_uchar (Z.lxor tmp 0x5A) in
  s <- Int.sub (Z.lnot tmp) (Z.lxor k2 k3) ;;
  let tmp := to_uchar s in
  tmp <- ROR8 tmp (k2 mod 7 + 1) ;;
  let tmp := to_uchar (Z.lxor tmp k1) in
  Some (to_CharT T tmp).

Definition ctor (T : CharT) (N Seed : Z) (input : list Z)
  : option (list Z) :=
  for_loop (Z.to_nat N) N 0
    (fun i enc =>
       c <- load input i ;;
       e <- obfuscate T N Seed c i ;;
       store enc i e)
    (repeat 0 (Z.to_nat N)).

Definition decrypt (T : CharT) (N Seed : Z) (m : Memory)
  : option Memory :=
  for_loop (Z.to_nat N) N 0
    (fun i m =>
       e <- load (encrypted m) i ;;
       d <- deobfuscate T N Seed e i ;;
       o <- store (out m) i d ;;
       Some (mkMemory (encrypted m) o))
    m.

Definition size (N : Z) (m : Memory) : Z := N.

End SecureString.

End SecureString_hpp.

(** ** The transform as the specification words it

Section 4.2 of the specification describes the pipeline over a
working byte, with the three key bytes as arguments and the stage-4
constant [K] as a parameter.  These definitions follow its words and
are compared with the code below. *)

Module Transform.

Definition rotate_left_8 (v r : Z) : Z :=
  (v * 2 ^ r) mod 256 + v / 2 ^ (8 - r).

Definition rotate_right_8 (v r : Z) : Z :=
  v / 2 ^ r + (v * 2 ^ (8 - r)) mod 256.

Definition bitwise_complement (v : Z) : Z := 255 - v.

Definition encode (K c i keyA keyB keyC : Z) : Z :=
  let v := Z.lxor c keyA in
  let v := rotate_left_8 v (keyB mod 7 + 1) in
  let v := bitwise_complement ((v + Z.lxor keyB keyC) mod 256) in
  let v := Z.lxor v K in
  rotate_right_8 v ((i + keyC) mod 8).

Definition decode (K c' i keyA keyB keyC : Z) : Z :=
  let v := rotate_left_8 c' ((i + keyC) mod 8) in
  let v := Z.lxor v K in
  let v := (bitwise_complement v - Z.lxor keyB keyC) mod 256 in
  let v := rotate_right_8 v (keyB mod 7 + 1) in
  Z.lxor v keyA.

End Transform.

(** Byte lane [k] of a value: bits [8k .. 8k+7]. *)
Definition lane (k v : Z) : Z := Z.land (Z.shiftr v (8 * k)) 0xFF.

(** The fold of section 4.1 of the specification: all four byte lanes of
    the 32-bit value. *)
Definition fold_four_lanes (v : Z) : Z :=
  Z.lxor (Z.lxor (Z.lxor (lane 0 v) (lane 1 v)) (lane 2 v)) (lane 3 v).

Definition fold_three_lanes (v : Z) : Z :=
  Z.lxor (Z.lxor (lane 0 v) (lane 1 v)) (lane 2 v).

(** ** Finite domains, for the checks done by enumeration *)

Definition below (n : nat) : list Z := map Z.of_nat (seq 0 n).

Definition bytes : list Z := below 256.

Definition is_byteb (x : Z) : bool := (0 <=? x) && (x <? 256).

Definition opt_eqb (a : option Z) (b : Z) : bool :=
  match a with
  | Some v => v =? b
  | None => false
  end.

(** The value of a computation that does not fault. *)
Definition value (a : option Z) : Z :=
  match a with
  | Some v => v
  | None => 0
  end.

(** What a caller can do once the object of [secure_string.hpp] is
    built: call [decrypt] on the current destination, call [size], or
    hand over another destination buffer of its own. *)
Inductive operation : Type :=
| op_decrypt
| op_size
| op_new_buffer (buf : list Z).

Definition apply_op (T : CharT) (N Seed : Z) (o : operation) (m : Memory)
  : option Memory :=
  match o with
  | op_decrypt => secure_string_hpp.SecureString.decrypt T N Seed m
  | op_size =>
      let _ := secure_string_hpp.SecureString.size N m in Some m
  | op_new_buffer buf => Some (mkMemory (encrypted m) buf)
  end.

Fixpoint run (T : CharT) (N Seed : Z) (ops : list operation) (m : Memory)
  : option Memory :=
  match ops with
  | [] => Some m
  | o :: rest => m' <- apply_op T N Seed o m ;; run T N Seed rest m'
  end.

(** ** What the main theorems conclude *)

(** [decrypt] of the array built by the constructor from [P] writes [P]
    back; the two functions are those of either header. *)
Definition recovers
    (ctor : CharT -> Z -> Z -> list Z -> option (list Z))
    (decrypt : CharT -> Z -> Z -> Memory -> option Memory)
    (T : CharT) (N Seed : Z) (P out0 : list Z) : Prop :=
  exists e o,
    ctor T N Seed P = Some e
    /\ decrypt T N Seed (mkMemory e out0) = Some (mkMemory e o)
    /\ firstn (Z.to_nat N) o = P.

(** At position [i], [obfuscate] maps the bytes onto the bytes one to
    one, and [deobfuscate] is the only map that undoes it. *)
Definition permutes_bytes (T : CharT) (N Seed i : Z) : Prop :=
  let f := fun c =>
    value (secure_string_hpp.SecureString.obfuscate T N Seed c i) in
  let g := fun d =>
    value (secure_string_hpp.SecureString.deobfuscate T N Seed d i) in
  (forall c, is_byte c ->
     secure_string_hpp.SecureString.obfuscate T N Seed c i = Some (f c)
     /\ is_byte (f c))
  /\ (forall d, is_byte d ->
        secure_string_hpp.SecureString.deobfuscate T N Seed d i = Some (g d)
        /\ is_byte (g d))
  /\ Permutation (map f bytes) bytes
  /\ (forall c, is_byte c -> g (f c) = c)
  /\ (forall d, is_byte d -> f (g d) = d)
  /\ (forall h : Z -> Z,
        (forall c, is_byte c -> h (f c) = c) ->
        forall d, is_byte d -> h d = g d).

(** What [obfuscate] and [deobfuscate] of one header do to a 16-bit
    unit [u] at position [i]. *)
Definition truncates_unit
    (obfuscate deobfuscate : CharT -> Z -> Z -> Z -> Z -> option Z)
    (N Seed u i : Z) : Prop :=
  exists e d,
    obfuscate wchar_t N Seed u i = Some e
    /\ Z.shiftr e 8 = 0
    /\ deobfuscate wchar_t N Seed u i = Some d
    /\ Z.shiftr d 8 = 0
    /\ obfuscate wchar_t N Seed (u mod 256) i = Some e
    /\ deobfuscate wchar_t N Seed e i = Some (u mod 256)
    /\ (256 <= u -> deobfuscate wchar_t N Seed e i <> Some u).

(** What [decrypt] returns for the array the constructor builds from the
    wide literal [P]: the low byte of every unit. *)
Definition truncates_literal
    (ctor : CharT -> Z -> Z -> list Z -> option (list Z))
    (decrypt : CharT -> Z -> Z -> Memory -> option Memory)
    (N Seed : Z) (P out0 : list Z) : Prop :=
  exists e o,
    ctor wchar_t N Seed P = Some e
    /\ decrypt wchar_t N Seed (mkMemory e out0) = Some (mkMemory e o)
    /\ firstn (Z.to_nat N) o = map (fun u => u mod 256) P.

(** The key triple of position [i], and the pipeline both [obfuscate]
    and [deobfuscate] run with it. *)
Definition derives_keys (T : CharT) (N Seed i : Z) : Prop :=
  exists k1 k2 k3,
    secure_string_hpp.KeyGen.get N Seed 0 i = Some k1
    /\ secure_string_hpp.KeyGen.get N (Z.lxor Seed 0xBAADF00DDEADC0DE) 0
         (N - i - 1) = Some k2
    /\ secure_string_hpp.KeyGen.get N (Z.lxor Seed 0xFEEDBABECAFED00D) 0
         ((i * i) mod 2 ^ 64 mod N) = Some k3
    /\ (forall c,
          secure_string_hpp.SecureString.obfuscate T N Seed c i
          = Some (to_CharT T
                    (Transform.encode 0xA5 (to_uchar c) i k1 k2 k3)))
    /\ (forall c,
          secure_string_hpp.SecureString.deobfuscate T N Seed c i
          = Some (to_CharT T
                    (Transform.decode 0xA5 (to_uchar c) i k1 k2 k3)))
    /\ (i < 2 ^ 32 -> (i * i) mod 2 ^ 64 mod N = (i * i) mod N)
    /\ Forall U64.in_range [0xBAADF00DDEADC0DE; 0xFEEDBABECAFED00D]
    /\ NoDup [0xBAADF00DDEADC0DE; 0xFEEDBABECAFED00D;
              0x3C6EF372FE94F82B; 0x0F1E2D3C4B5A6978].

(** What [decrypt] changes and what it leaves as it was. *)
Definition decrypt_frame (T : CharT) (N Seed : Z) (m : Memory) : Prop :=
  exists m',
    secure_string_hpp.SecureString.decrypt T N Seed m = Some m'
    /\ encrypted m' = encrypted m
    /\ length (out m') = length (out m)
    /\ (forall i, 0 <= i < N ->
          exists e,
            load (encrypted m) i = Some e
            /\ load (out m') i
               = secure_string_hpp.SecureString.deobfuscate T N Seed e i)
    /\ (forall j, ~ 0 <= j < N -> load (out m') j = load (out m) j)
    /\ (forall ops m'',
          run T N Seed ops m = Some m'' -> encrypted m'' = encrypted m).

(** The array the constructor builds is a function of the literal, its
    length and the seed, unit by unit; a key byte is a function of the
    arguments of [get]. *)
Definition deterministic (T : CharT) (N Seed : Z) (P : list Z) : Prop :=
  exists e,
    secure_string_hpp.SecureString.ctor T N Seed P = Some e
    /\ Z.of_nat (length e) = N
    /\ (forall e',
          secure_string_hpp.SecureString.ctor T N Seed P = Some e' -> e' = e)
    /\ (forall i, 0 <= i < N ->
          exists c,
            load P i = Some c
            /\ load e i
               = secure_string_hpp.SecureString.obfuscate T N Seed c i)
    /\ (forall P' e' i,
          Z.of_nat (length P') = N ->
          secure_string_hpp.SecureString.ctor T N Seed P' = Some e' ->
          0 <= i < N -> load P' i = load P i -> load e' i = load e i)
    /\ (forall Round index,
          exists k,
            secure_string_hpp.KeyGen.get N Seed Round index = Some k
            /\ forall k',
                 secure_string_hpp.KeyGen.get N Seed Round index = Some k' ->
                 k' = k).

(** No operation of the core faults. *)
Definition fault_free (T : CharT) (N Seed : Z) : Prop :=
  (forall Round index,
     exists k,
       secure_string_hpp.KeyGen.get N Seed Round index = Some k /\ is_byte k)
  /\ (forall c i, 0 <= i < N ->
        exists e,
          secure_string_hpp.SecureString.obfuscate T N Seed c i = Some e
          /\ is_CharT T e)
  /\ (forall c i, 0 <= i < N ->
        exists d,
          secure_string_hpp.SecureString.deobfuscate T N Seed c i = Some d
          /\ is_CharT T d)
  /\ (forall i, 0 <= i < N ->
        U64.rem (U64.mul i i) N = Some ((i * i) mod 2 ^ 64 mod N)
        /\ 0 <= (i * i) mod 2 ^ 64 mod N < N)
  /\ (forall i, 0 <= i < N ->
        U64.sub (U64.sub N i) 1 = N - i - 1 /\ 0 <= N - i - 1 < N)
  /\ (forall index, 0 <= index < N ->
        U64.add (U64.sub (U64.sub N index) 1) 0 = N - index - 1)
  /\ (forall a b,
        U64.in_range (U64.add a b) /\ U64.in_range (U64.sub a b)
        /\ U64.in_range (U64.mul a b))
  /\ (forall P, Z.of_nat (length P) = N ->
        exists e, secure_string_hpp.SecureString.ctor T N Seed P = Some e)
  /\ (forall m,
        Z.of_nat (length (encrypted m)) = N ->
        N <= Z.of_nat (length (out m)) ->
        exists m', secure_string_hpp.SecureString.decrypt T N Seed m = Some m').

(** The two headers: one key generator, one pipeline, two stage-4
    constants. *)
Definition variants_agree (T : CharT) (N Seed c i : Z) : Prop :=
  (forall N' Seed' Round index,
     SecureString_hpp.KeyGen.get N' Seed' Round index
     = secure_string_hpp.KeyGen.get N' Seed' Round index)
  /\ (exists k1 k2 k3,
        secure_string_hpp.KeyGen.get N Seed 0 i = Some k1
        /\ secure_string_hpp.KeyGen.get N (Z.lxor Seed 0xBAADF00DDEADC0DE) 0
             (U64.sub (U64.sub N i) 1) = Some k2
        /\ secure_string_hpp.KeyGen.get N (Z.lxor Seed 0xFEEDBABECAFED00D) 0
             (U64.mul i i mod N) = Some k3
        /\ secure_string_hpp.SecureString.obfuscate T N Seed c i
           = Some (to_CharT T
                     (Transform.encode 0xA5 (to_uchar c) i k1 k2 k3))
        /\ SecureString_hpp.SecureString.obfuscate T N Seed c i
           = Some (to_CharT T
                     (Transform.encode 0x5A (to_uchar c) i k1 k2 k3))
        /\ secure_string_hpp.SecureString.deobfuscate T N Seed c i
           = Some (to_CharT T
                     (Transform.decode 0xA5 (to_uchar c) i k1 k2 k3))
        /\ SecureString_hpp.SecureString.deobfuscate T N Seed c i
           = Some (to_CharT T
                     (Transform.decode 0x5A (to_uchar c) i k1 k2 k3)))
  /\ (exists e,
        secure_string_hpp.SecureString.obfuscate T N Seed c i = Some e
        /\ secure_string_hpp.SecureString.deobfuscate T N Seed e i
           = Some (to_uchar c))
  /\ (exists e,
        SecureString_hpp.SecureString.obfuscate T N Seed c i = Some e
        /\ SecureString_hpp.SecureString.deobfuscate T N Seed e i
           = Some (to_uchar c))
  /\ secure_string_hpp.SecureString.obfuscate T N Seed c i
     <> SecureString_hpp.SecureString.obfuscate T N Seed c i.

(** ** The entry macros

    [ENC_STR(s)] and [ENC_WSTR(s)] expand to a lambda called on the
    spot: the object [crypt] is built from the literal at compile time,
    [buf] is a function-local static array of as many units as the
    literal (zero at start), and every call runs [crypt.decrypt(buf)]
    and returns [buf].  The static buffer is the state a call reads and
    leaves; the value of [SECURE_UNIQUE_SEED] at the expansion is the
    argument [Seed]. *)

Module secure_string_hpp_macros.

Definition ENC_STR (Seed : Z) (s buf : list Z) : option (list Z) :=
  let N := Z.of_nat (length s) in
  crypt <- secure_string_hpp.SecureString.ctor char N Seed s ;;
  m <- secure_string_hpp.SecureString.decrypt char N Seed
         (mkMemory crypt buf) ;;
  Some (out m).

Definition ENC_WSTR (Seed : Z) (s buf : list Z) : option (list Z) :=
  let N := Z.of_nat (length s) in
  crypt <- secure_string_hpp.SecureString.ctor wchar_t N Seed s ;;
  m <- secure_string_hpp.SecureString.decrypt wchar_t N Seed
         (mkMemory crypt buf) ;;
  Some (out m).

End secure_string_hpp_macros.

Module SecureString_hpp_macros.

Definition ENC_STR (Seed : Z) (s buf : list Z) : option (list Z) :=
  let N := Z.of_nat (length s) in
  crypt <- SecureString_hpp.SecureString.ctor char N Seed s ;;
  m <- SecureString_hpp.SecureString.decrypt char N Seed
         (mkMemory crypt buf) ;;
  Some (out m).

Definition ENC_WSTR (Seed : Z) (s buf : list Z) : option (list Z) :=
  let N := Z.of_nat (length s) in
  crypt <- SecureString_hpp.SecureString.ctor wchar_t N Seed s ;;
  m <- SecureString_hpp.SecureString.decrypt wchar_t N Seed
         (mkMemory crypt buf) ;;
  Some (out m).

End SecureString_hpp_macros.

(** ** The inverse of the mixer

    Not in the source: the map that undoes [KeyGen::mix], with the
    inverses modulo [2^64] of its two multipliers, used to state that
    [mix] permutes the 64-bit values. *)

Definition unmix (y : Z) : Z :=
  let y := Z.lxor y (Z.shiftr y 33) in
  let y := U64.mul y 0x4BC5076D404C6A0D in
  let y := Z.lxor y (Z.shiftr y 33) in
  let y := U64.mul y 0xCFEE444D8B59A89B in
  Z.lxor y (Z.shiftr y 33).

(** ** What the further theorems conclude *)

(** [permutes_bytes] for the functions of [SecureString.hpp]. *)
Definition permutes_bytes_5A (T : CharT) (N Seed i : Z) : Prop :=
  let f := fun c =>
    value (SecureString_hpp.SecureString.obfuscate T N Seed c i) in
  let g := fun d =>
    value (SecureString_hpp.SecureString.deobfuscate T N Seed d i) in
  (forall c, is_byte c ->
     SecureString_hpp.SecureString.obfuscate T N Seed c i = Some (f c)
     /\ is_byte (f c))
  /\ (forall d, is_byte d ->
        SecureString_hpp.SecureString.deobfuscate T N Seed d i = Some (g d)
        /\ is_byte (g d))
  /\ Permutation (map f bytes) bytes
  /\ (forall c, is_byte c -> g (f c) = c)
  /\ (forall d, is_byte d -> f (g d) = d).

(** What [decrypt] of [SecureString.hpp] changes and what it leaves. *)
Definition decrypt_frame_5A (T : CharT) (N Seed : Z) (m : Memory) : Prop :=
  exists m',
    SecureString_hpp.SecureString.decrypt T N Seed m = Some m'
    /\ encrypted m' = encrypted m
    /\ length (out m') = length (out m)
    /\ (forall i, 0 <= i < N ->
          exists e,
            load (encrypted m) i = Some e
            /\ load (out m') i
               = SecureString_hpp.SecureString.deobfuscate T N Seed e i)
    /\ (forall j, ~ 0 <= j < N -> load (out m') j = load (out m) j).

(** A unit put through [obfuscate] of one header and [deobfuscate] of
    the other comes back, and comes back changed. *)
Definition crossed
    (obfuscate deobfuscate : CharT -> Z -> Z -> Z -> Z -> option Z)
    (T : CharT) (N Seed c i : Z) : Prop :=
  exists e d,
    obfuscate T N Seed c i = Some e
    /\ deobfuscate T N Seed e i = Some d
    /\ is_byte d
    /\ d <> c.

(** Every array of [N] bytes is the array the constructor builds from
    what [decrypt] makes of it. *)
Definition reencrypts
    (ctor : CharT -> Z -> Z -> list Z -> option (list Z))
    (decrypt : CharT -> Z -> Z -> Memory -> option Memory)
    (T : CharT) (N Seed : Z) (e out0 : list Z) : Prop :=
  exists o,
    decrypt T N Seed (mkMemory e out0) = Some (mkMemory e o)
    /\ Forall is_byte (firstn (Z.to_nat N) o)
    /\ ctor T N Seed (firstn (Z.to_nat N) o) = Some e.

(** * Properties *)

(** ** Arithmetic of the fixed-width types *)

Lemma is_byteb_spec x : is_byteb x = true <-> is_byte x.
Proof.
  unfold is_byteb, is_byte.
  rewrite andb_true_iff, Z.leb_le, Z.ltb_lt. tauto.
Qed.

Lemma to_uchar_byte x : is_byte (to_uchar x).
Proof. unfold is_byte, to_uchar. apply Z.mod_pos_bound. lia. Qed.

Lemma to_uchar_small x : is_byte x -> to_uchar x = x.
Proof. unfold is_byte, to_uchar. intros H. apply Z.mod_small. exact H. Qed.

Lemma wrap_range x : U64.in_range (U64.wrap x).
Proof.
  unfold U64.in_range, U64.wrap, U64.modulus.
  apply Z.mod_pos_bound. lia.
Qed.

Lemma wrap_small x : U64.in_range x -> U64.wrap x = x.
Proof.
  unfold U64.in_range, U64.wrap. intros H. apply Z.mod_small. exact H.
Qed.

Lemma wrap_mod_8 x : U64.wrap x mod 8 = x mod 8.
Proof.
  unfold U64.wrap, U64.modulus.
  apply Z.mod_mod_divide. exists (2 ^ 61). reflexivity.
Qed.

Lemma lxor_bound n a b :
  0 <= n -> 0 <= a < 2 ^ n -> 0 <= b < 2 ^ n -> 0 <= Z.lxor a b < 2 ^ n.
Proof.
  intros Hn Ha Hb.
  assert (Hnn : 0 <= Z.lxor a b) by (apply Z.lxor_nonneg; lia).
  split; [exact Hnn|].
  destruct (Z.eq_dec (Z.lxor a b) 0) as [E|E].
  - rewrite E. apply Z.pow_pos_nonneg; lia.
  - assert (Hpos : 0 < n).
    { destruct (Z.eq_dec n 0) as [->|]; [|lia].
      exfalso. apply E.
      replace a with 0 by (simpl in *; lia).
      replace b with 0 by (simpl in *; lia). reflexivity. }
    apply Z.log2_lt_pow2; [lia|].
    eapply Z.le_lt_trans; [apply Z.log2_lxor; lia|].
    apply Z.max_lub_lt.
    + destruct (Z.eq_dec a 0) as [->|]; [simpl; lia|].
      apply Z.log2_lt_pow2; lia.
    + destruct (Z.eq_dec b 0) as [->|]; [simpl; lia|].
      apply Z.log2_lt_pow2; lia.
Qed.

Lemma lxor_byte a b : is_byte a -> is_byte b -> is_byte (Z.lxor a b).
Proof. unfold is_byte. intros. apply (lxor_bound 8); lia. Qed.

Lemma lxor_cancel a b : Z.lxor (Z.lxor a b) b = a.
Proof. rewrite Z.lxor_assoc, Z.lxor_nilpotent, Z.lxor_0_r. reflexivity. Qed.

Lemma in_below n x : 0 <= x < Z.of_nat n -> In x (below n).
Proof.
  intros H. unfold below. apply in_map_iff.
  exists (Z.to_nat x). split; [lia|].
  apply in_seq. lia.
Qed.

Lemma below_in n x : In x (below n) -> 0 <= x < Z.of_nat n.
Proof.
  unfold below. intros H. apply in_map_iff in H.
  destruct H as [k [<- Hk]]. apply in_seq in Hk. lia.
Qed.

Lemma check_bytes_counts (n : nat) (p : Z -> Z -> bool) :
  forallb (fun x => forallb (p x) (below n)) bytes = true ->
  forall x r, is_byte x -> 0 <= r < Z.of_nat n -> p x r = true.
Proof.
  intros H x r Hx Hr.
  rewrite forallb_forall in H.
  specialize (H x (in_below 256 x Hx)).
  rewrite forallb_forall in H.
  exact (H r (in_below n r Hr)).
Qed.

Lemma opt_eqb_eq a b : opt_eqb a b = true -> a = Some b.
Proof.
  destruct a as [v|]; simpl; [|discriminate].
  intros H. apply Z.eqb_eq in H. congruence.
Qed.

Lemma U64_shl_ok a s :
  0 <= s < 64 -> U64.shl a s = Some (U64.wrap (Z.shiftl a s)).
Proof.
  intros H. unfold U64.shl.
  replace ((0 <=? s) && (s <? 64)) with true; [reflexivity|].
  symmetry. apply andb_true_iff. rewrite Z.leb_le, Z.ltb_lt. exact H.
Qed.

Lemma U64_shr_ok a s : 0 <= s < 64 -> U64.shr a s = Some (Z.shiftr a s).
Proof.
  intros H. unfold U64.shr.
  replace ((0 <=? s) && (s <? 64)) with true; [reflexivity|].
  symmetry. apply andb_true_iff. rewrite Z.leb_le, Z.ltb_lt. exact H.
Qed.

Lemma U64_rem_ok a N : N <> 0 -> U64.rem a N = Some (a mod N).
Proof.
  intros H. unfold U64.rem.
  destruct (N =? 0) eqn:E; [apply Z.eqb_eq in E; contradiction|reflexivity].
Qed.

Lemma Int_checked_ok x : - 2 ^ 31 <= x < 2 ^ 31 -> Int.checked x = Some x.
Proof.
  intros H. unfold Int.checked, Int.representable.
  replace ((- 2 ^ 31 <=? x) && (x <? 2 ^ 31)) with true; [reflexivity|].
  symmetry. apply andb_true_iff. rewrite Z.leb_le, Z.ltb_lt. exact H.
Qed.

Lemma Int_add_bytes a b : is_byte a -> is_byte b -> Int.add a b = Some (a + b).
Proof.
  unfold is_byte, Int.add. intros Ha Hb. apply Int_checked_ok. lia.
Qed.

Lemma Int_sub_lnot a b :
  is_byte a -> is_byte b -> Int.sub (Z.lnot a) b = Some (Z.lnot a - b).
Proof.
  unfold is_byte, Int.sub, Z.lnot. intros Ha Hb. apply Int_checked_ok. lia.
Qed.

(** ** The rotation macros against the rotations of the specification *)

Create HintDb byte.

Lemma ROL8_rotate x r :
  is_byte x -> 0 <= r < 8 ->
  secure_string_hpp.ROL8 x r = Some (Transform.rotate_left_8 x r).
Proof.
  intros Hx Hr. apply opt_eqb_eq. revert x r Hx Hr.
  apply (check_bytes_counts 8
           (fun x r => opt_eqb (secure_string_hpp.ROL8 x r)
                         (Transform.rotate_left_8 x r))).
  vm_compute. reflexivity.
Qed.

Lemma ROR8_rotate x r :
  is_byte x -> 0 <= r < 8 ->
  secure_string_hpp.ROR8 x r = Some (Transform.rotate_right_8 x r).
Proof.
  intros Hx Hr. apply opt_eqb_eq. revert x r Hx Hr.
  apply (check_bytes_counts 8
           (fun x r => opt_eqb (secure_string_hpp.ROR8 x r)
                         (Transform.rotate_right_8 x r))).
  vm_compute. reflexivity.
Qed.

(** On a byte, the 64-bit instance of [ROL8] is the rotation by the count
    reduced modulo 8: a count of 8 rotates by nothing. *)
Lemma ROL8_u64_rotate x r :
  is_byte x -> 0 <= r < 9 ->
  secure_string_hpp.ROL8_u64 x r = Some (Transform.rotate_left_8 x (r mod 8)).
Proof.
  intros Hx Hr. apply opt_eqb_eq. revert x r Hx Hr.
  apply (check_bytes_counts 9
           (fun x r => opt_eqb (secure_string_hpp.ROL8_u64 x r)
                         (Transform.rotate_left_8 x (r mod 8)))).
  vm_compute. reflexivity.
Qed.

Lemma rotate_left_byte x r :
  is_byte x -> 0 <= r < 8 -> is_byte (Transform.rotate_left_8 x r).
Proof.
  intros Hx Hr. apply is_byteb_spec. revert x r Hx Hr.
  apply (check_bytes_counts 8
           (fun x r => is_byteb (Transform.rotate_left_8 x r))).
  vm_compute. reflexivity.
Qed.

Lemma rotate_right_byte x r :
  is_byte x -> 0 <= r < 8 -> is_byte (Transform.rotate_right_8 x r).
Proof.
  intros Hx Hr. apply is_byteb_spec. revert x r Hx Hr.
  apply (check_bytes_counts 8
           (fun x r => is_byteb (Transform.rotate_right_8 x r))).
  vm_compute. reflexivity.
Qed.

Lemma rotate_right_left x r :
  is_byte x -> 0 <= r < 8 ->
  Transform.rotate_right_8 (Transform.rotate_left_8 x r) r = x.
Proof.
  intros Hx Hr. apply Z.eqb_eq. revert x r Hx Hr.
  apply (check_bytes_counts 8
           (fun x r => Transform.rotate_right_8
                         (Transform.rotate_left_8 x r) r =? x)).
  vm_compute. reflexivity.
Qed.

Lemma rotate_left_right x r :
  is_byte x -> 0 <= r < 8 ->
  Transform.rotate_left_8 (Transform.rotate_right_8 x r) r = x.
Proof.
  intros Hx Hr. apply Z.eqb_eq. revert x r Hx Hr.
  apply (check_bytes_counts 8
           (fun x r => Transform.rotate_left_8
                         (Transform.rotate_right_8 x r) r =? x)).
  vm_compute. reflexivity.
Qed.

(** A rotation by 1 to 7 bits moves the byte 1. *)
Lemma rotate_left_moves r :
  1 <= r < 8 -> Transform.rotate_left_8 1 r <> 1.
Proof.
  intros Hr.
  assert (H : In r (below 8)) by (apply in_below; lia).
  unfold below in H. simpl in H.
  repeat (destruct H as [<-|H]; [try lia; vm_compute; discriminate|]).
  destruct H.
Qed.

Lemma rotate_left_0 x : is_byte x -> Transform.rotate_left_8 x 0 = x.
Proof.
  unfold is_byte, Transform.rotate_left_8. intros H.
  change (2 ^ 0) with 1. change (2 ^ (8 - 0)) with 256.
  rewrite Z.mul_1_r, Z.mod_small, Z.div_small by lia. lia.
Qed.

Lemma complement_byte v : is_byte v -> is_byte (Transform.bitwise_complement v).
Proof. unfold is_byte, Transform.bitwise_complement. lia. Qed.

Lemma mod7_count k : 0 <= k mod 7 + 1 < 8.
Proof. pose proof (Z.mod_pos_bound k 7). lia. Qed.

Lemma mod8_count k : 0 <= k mod 8 < 8.
Proof. apply Z.mod_pos_bound. lia. Qed.

Lemma mod256_byte k : is_byte (k mod 256).
Proof. apply to_uchar_byte. Qed.

#[local] Hint Resolve to_uchar_byte lxor_byte rotate_left_byte
  rotate_right_byte complement_byte mod7_count mod8_count mod256_byte : byte.

Lemma K_A5_byte : is_byte 0xA5.
Proof. unfold is_byte. lia. Qed.

Lemma K_5A_byte : is_byte 0x5A.
Proof. unfold is_byte. lia. Qed.

#[local] Hint Resolve K_A5_byte K_5A_byte : byte.

Lemma lnot_uchar s :
  to_uchar (Z.lnot s) = Transform.bitwise_complement (s mod 256).
Proof.
  unfold to_uchar, Transform.bitwise_complement, Z.lnot.
  Z.div_mod_to_equations. lia.
Qed.

Lemma lnot_sub_uchar a b :
  to_uchar (Z.lnot a - b) = (Transform.bitwise_complement a - b) mod 256.
Proof.
  unfold to_uchar, Transform.bitwise_complement, Z.lnot.
  Z.div_mod_to_equations. lia.
Qed.

(** ** The pipeline of the specification is a bijection on bytes *)

Lemma encode_byte K c i kA kB kC :
  is_byte K -> is_byte c -> is_byte kA -> is_byte kB -> is_byte kC ->
  is_byte (Transform.encode K c i kA kB kC).
Proof. intros. unfold Transform.encode. auto 10 with byte. Qed.

Lemma decode_byte K c i kA kB kC :
  is_byte K -> is_byte c -> is_byte kA -> is_byte kB -> is_byte kC ->
  is_byte (Transform.decode K c i kA kB kC).
Proof. intros. unfold Transform.decode. auto 10 with byte. Qed.

Lemma decode_encode K c i kA kB kC :
  is_byte K -> is_byte c -> is_byte kA -> is_byte kB -> is_byte kC ->
  Transform.decode K (Transform.encode K c i kA kB kC) i kA kB kC = c.
Proof.
  intros HK Hc HA HB HC. unfold Transform.decode, Transform.encode.
  rewrite rotate_left_right by auto 10 with byte.
  rewrite lxor_cancel.
  set (v := Transform.rotate_left_8 (Z.lxor c kA) (kB mod 7 + 1)).
  assert (Hv : is_byte v) by (subst v; auto with byte).
  set (kk := Z.lxor kB kC).
  assert (Hkk : is_byte kk) by (subst kk; auto with byte).
  replace ((Transform.bitwise_complement
              (Transform.bitwise_complement ((v + kk) mod 256)) - kk) mod 256)
    with v.
  - subst v. rewrite rotate_right_left by auto with byte.
    apply lxor_cancel.
  - unfold Transform.bitwise_complement, is_byte in *.
    Z.div_mod_to_equations. lia.
Qed.

Lemma encode_decode K c i kA kB kC :
  is_byte K -> is_byte c -> is_byte kA -> is_byte kB -> is_byte kC ->
  Transform.encode K (Transform.decode K c i kA kB kC) i kA kB kC = c.
Proof.
  intros HK Hc HA HB HC. unfold Transform.decode, Transform.encode.
  rewrite lxor_cancel.
  set (w := Z.lxor (Transform.rotate_left_8 c ((i + kC) mod 8)) K).
  assert (Hw : is_byte w) by (subst w; auto with byte).
  set (kk := Z.lxor kB kC).
  assert (Hkk : is_byte kk) by (subst kk; auto with byte).
  rewrite rotate_left_right by auto with byte.
  replace (Transform.bitwise_complement
             (((Transform.bitwise_complement w - kk) mod 256 + kk) mod 256))
    with w.
  - subst w. rewrite lxor_cancel.
    apply rotate_right_left; auto with byte.
  - unfold Transform.bitwise_complement, is_byte in *.
    Z.div_mod_to_equations. lia.
Qed.

(** ** The key generator *)

Lemma KeyGen_get_byte_same Seed Round index :
  SecureString_hpp.KeyGen.get_byte Seed Round index
  = secure_string_hpp.KeyGen.get_byte Seed Round index.
Proof.
  unfold SecureString_hpp.KeyGen.get_byte, secure_string_hpp.KeyGen.get_byte,
    SecureString_hpp.KeyGen.folded, secure_string_hpp.KeyGen.folded,
    SecureString_hpp.KeyGen.mixed, secure_string_hpp.KeyGen.mixed,
    SecureString_hpp.KeyGen.mix, secure_string_hpp.KeyGen.mix,
    Size_t.mul, U64.mul.
  reflexivity.
Qed.

Lemma KeyGen_combined_same N Seed Round index :
  SecureString_hpp.KeyGen.combined N Seed Round index
  = secure_string_hpp.KeyGen.combined N Seed Round index.
Proof.
  unfold SecureString_hpp.KeyGen.combined, secure_string_hpp.KeyGen.combined,
    Size_t.add, Size_t.sub, U64.add, U64.sub.
  cbv zeta.
  repeat match goal with
    | |- context [SecureString_hpp.KeyGen.get_byte ?a ?b ?c] =>
        rewrite (KeyGen_get_byte_same a b c)
    end.
  reflexivity.
Qed.

Lemma KeyGen_get_same N Seed Round index :
  SecureString_hpp.KeyGen.get N Seed Round index
  = secure_string_hpp.KeyGen.get N Seed Round index.
Proof.
  unfold SecureString_hpp.KeyGen.get, secure_string_hpp.KeyGen.get.
  rewrite (KeyGen_combined_same N Seed Round index).
  reflexivity.
Qed.

Lemma rotation_value Round index :
  secure_string_hpp.KeyGen.rotation Round index = (index + Round) mod 8 + 1.
Proof.
  unfold secure_string_hpp.KeyGen.rotation, U64.add.
  rewrite wrap_mod_8. apply wrap_small.
  pose proof (mod8_count (index + Round)).
  unfold U64.in_range, U64.modulus. lia.
Qed.

Lemma ROL8_u64_some x r :
  exists k, secure_string_hpp.ROL8_u64 x r = Some k /\ is_byte k.
Proof.
  unfold secure_string_hpp.ROL8_u64.
  pose proof (mod8_count r).
  rewrite U64_shl_ok, U64_shr_ok by lia. cbn [bind].
  eexists. split; [reflexivity|apply to_uchar_byte].
Qed.

Lemma get_some N Seed Round index :
  exists k, secure_string_hpp.KeyGen.get N Seed Round index = Some k
            /\ is_byte k.
Proof. unfold secure_string_hpp.KeyGen.get. apply ROL8_u64_some. Qed.

Lemma get_is_byte N Seed Round index k :
  secure_string_hpp.KeyGen.get N Seed Round index = Some k -> is_byte k.
Proof.
  intros H. destruct (get_some N Seed Round index) as [k' [E Hk]].
  congruence.
Qed.

Lemma get_is_byte_5A N Seed Round index k :
  SecureString_hpp.KeyGen.get N Seed Round index = Some k -> is_byte k.
Proof. rewrite KeyGen_get_same. apply get_is_byte. Qed.

(** ** [obfuscate] and [deobfuscate] against the pipeline *)

Lemma to_CharT_byte T b : is_byte b -> to_CharT T b = b.
Proof.
  unfold is_byte, to_CharT. intros H. apply Z.mod_small.
  destruct T; simpl; lia.
Qed.

Ltac pipeline_steps :=
  repeat first
    [ rewrite to_uchar_small by auto 10 with byte
    | rewrite ROL8_rotate by auto 10 with byte
    | rewrite ROR8_rotate by auto 10 with byte
    | rewrite Int_add_bytes by auto 10 with byte
    | rewrite Int_sub_lnot by auto 10 with byte
    | rewrite lnot_uchar
    | rewrite lnot_sub_uchar
    | progress cbn [bind] ].

Lemma obfuscate_encode T N Seed c i k1 k2 k3 :
  N <> 0 ->
  secure_string_hpp.KeyGen.get N Seed 0 i = Some k1 ->
  secure_string_hpp.KeyGen.get N (Z.lxor Seed 0xBAADF00DDEADC0DE) 0
    (U64.sub (U64.sub N i) 1) = Some k2 ->
  secure_string_hpp.KeyGen.get N (Z.lxor Seed 0xFEEDBABECAFED00D) 0
    (U64.mul i i mod N) = Some k3 ->
  secure_string_hpp.SecureString.obfuscate T N Seed c i
  = Some (to_CharT T (Transform.encode 0xA5 (to_uchar c) i k1 k2 k3)).
Proof.
  intros HN H1 H2 H3.
  pose proof (get_is_byte _ _ _ _ _ H1).
  pose proof (get_is_byte _ _ _ _ _ H2).
  pose proof (get_is_byte _ _ _ _ _ H3).
  unfold secure_string_hpp.SecureString.obfuscate.
  rewrite H1, H2, (U64_rem_ok _ _ HN). cbn [bind]. rewrite H3.
  cbn [bind]. cbv zeta. unfold U64.add. rewrite !wrap_mod_8.
  pipeline_steps. reflexivity.
Qed.

Lemma deobfuscate_decode T N Seed c i k1 k2 k3 :
  N <> 0 ->
  secure_string_hpp.KeyGen.get N Seed 0 i = Some k1 ->
  secure_string_hpp.KeyGen.get N (Z.lxor Seed 0xBAADF00DDEADC0DE) 0
    (U64.sub (U64.sub N i) 1) = Some k2 ->
  secure_string_hpp.KeyGen.get N (Z.lxor Seed 0xFEEDBABECAFED00D) 0
    (U64.mul i i mod N) = Some k3 ->
  secure_string_hpp.SecureString.deobfuscate T N Seed c i
  = Some (to_CharT T (Transform.decode 0xA5 (to_uchar c) i k1 k2 k3)).
Proof.
  intros HN H1 H2 H3.
  pose proof (get_is_byte _ _ _ _ _ H1).
  pose proof (get_is_byte _ _ _ _ _ H2).
  pose proof (get_is_byte _ _ _ _ _ H3).
  unfold secure_string_hpp.SecureString.deobfuscate.
  rewrite H1, H2, (U64_rem_ok _ _ HN). cbn [bind]. rewrite H3.
  cbn [bind]. cbv zeta. unfold U64.add. rewrite !wrap_mod_8.
  pipeline_steps. reflexivity.
Qed.

Lemma obfuscate_encode_5A T N Seed c i k1 k2 k3 :
  N <> 0 ->
  SecureString_hpp.KeyGen.get N Seed 0 i = Some k1 ->
  SecureString_hpp.KeyGen.get N (Z.lxor Seed 0xBAADF00DDEADC0DE) 0
    (Size_t.sub (Size_t.sub N i) 1) = Some k2 ->
  SecureString_hpp.KeyGen.get N (Z.lxor Seed 0xFEEDBABECAFED00D) 0
    (Size_t.mul i i mod N) = Some k3 ->
  SecureString_hpp.SecureString.obfuscate T N Seed c i
  = Some (to_CharT T (Transform.encode 0x5A (to_uchar c) i k1 k2 k3)).
Proof.
  intros HN H1 H2 H3.
  pose proof (get_is_byte_5A _ _ _ _ _ H1).
  pose proof (get_is_byte_5A _ _ _ _ _ H2).
  pose proof (get_is_byte_5A _ _ _ _ _ H3).
  unfold SecureString_hpp.SecureString.obfuscate.
  unfold Size_t.rem. fold (U64.rem (Size_t.mul i i) N).
  rewrite H1, H2, (U64_rem_ok _ _ HN). cbn [bind]. rewrite H3.
  cbn [bind]. cbv zeta. unfold Size_t.add. rewrite !wrap_mod_8.
  change SecureString_hpp.ROL8 with secure_string_hpp.ROL8.
  change SecureString_hpp.ROR8 with secure_string_hpp.ROR8.
  pipeline_steps. reflexivity.
Qed.

Lemma deobfuscate_decode_5A T N Seed c i k1 k2 k3 :
  N <> 0 ->
  SecureString_hpp.KeyGen.get N Seed 0 i = Some k1 ->
  SecureString_hpp.KeyGen.get N (Z.lxor Seed 0xBAADF00DDEADC0DE) 0
    (Size_t.sub (Size_t.sub N i) 1) = Some k2 ->
  SecureString_hpp.KeyGen.get N (Z.lxor Seed 0xFEEDBABECAFED00D) 0
    (Size_t.mul i i mod N) = Some k3 ->
  SecureString_hpp.SecureString.deobfuscate T N Seed c i
  = Some (to_CharT T (Transform.decode 0x5A (to_uchar c) i k1 k2 k3)).
Proof.
  intros HN H1 H2 H3.
  pose proof (get_is_byte_5A _ _ _ _ _ H1).
  pose proof (get_is_byte_5A _ _ _ _ _ H2).
  pose proof (get_is_byte_5A _ _ _ _ _ H3).
  unfold SecureString_hpp.SecureString.deobfuscate.
  unfold Size_t.rem. fold (U64.rem (Size_t.mul i i) N).
  rewrite H1, H2, (U64_rem_ok _ _ HN). cbn [bind]. rewrite H3.
  cbn [bind]. cbv zeta. unfold Size_t.add. rewrite !wrap_mod_8.
  change SecureString_hpp.ROL8 with secure_string_hpp.ROL8.
  change SecureString_hpp.ROR8 with secure_string_hpp.ROR8.
  pipeline_steps. reflexivity.
Qed.

(** ** Arrays and the counted loop *)

Lemma update_length a n v : length (update a n v) = length a.
Proof.
  revert n. induction a as [|h t IH]; intros [|n]; simpl; auto.
Qed.

Lemma nth_error_update_same a n v :
  (n < length a)%nat -> nth_error (update a n v) n = Some v.
Proof.
  revert n. induction a as [|h t IH]; intros [|n] H; simpl in *;
    try lia; auto.
  apply IH. lia.
Qed.

Lemma nth_error_update_other a n m v :
  n <> m -> nth_error (update a n v) m = nth_error a m.
Proof.
  revert n m. induction a as [|h t IH]; intros [|n] [|m] H; simpl;
    try reflexivity; try contradiction.
  apply IH. congruence.
Qed.

Lemma store_some a i v :
  0 <= i < Z.of_nat (length a) ->
  store a i v = Some (update a (Z.to_nat i) v).
Proof.
  intros H. unfold store.
  replace ((0 <=? i) && (i <? Z.of_nat (length a))) with true; [reflexivity|].
  symmetry. apply andb_true_iff. rewrite Z.leb_le, Z.ltb_lt. exact H.
Qed.

Lemma load_some a i :
  0 <= i < Z.of_nat (length a) -> exists v, load a i = Some v.
Proof.
  intros H. unfold load.
  replace (0 <=? i) with true by (symmetry; apply Z.leb_le; lia).
  destruct (nth_error a (Z.to_nat i)) as [v|] eqn:E; [eauto|].
  apply nth_error_None in E. lia.
Qed.

Lemma load_update_same a i v :
  0 <= i < Z.of_nat (length a) -> load (update a (Z.to_nat i) v) i = Some v.
Proof.
  intros H. unfold load.
  replace (0 <=? i) with true by (symmetry; apply Z.leb_le; lia).
  apply nth_error_update_same. lia.
Qed.

Lemma load_update_other a i j v :
  0 <= i -> i <> j -> load (update a (Z.to_nat i) v) j = load a j.
Proof.
  intros Hi H. unfold load.
  destruct (0 <=? j) eqn:E; [|reflexivity].
  apply Z.leb_le in E.
  apply nth_error_update_other. lia.
Qed.

(** Two arrays of the same length with the same elements are equal. *)
Lemma load_ext a b :
  length a = length b ->
  (forall i, 0 <= i < Z.of_nat (length a) -> load a i = load b i) ->
  a = b.
Proof.
  intros HL H. apply nth_error_ext. intros n.
  destruct (Nat.lt_ge_cases n (length a)) as [Hn|Hn].
  - specialize (H (Z.of_nat n)). unfold load in H.
    replace (0 <=? Z.of_nat n) with true in H
      by (symmetry; apply Z.leb_le; lia).
    rewrite Nat2Z.id in H. apply H. lia.
  - rewrite (proj2 (nth_error_None a n)) by lia.
    rewrite (proj2 (nth_error_None b n)) by lia. reflexivity.
Qed.

Lemma load_firstn a n i :
  0 <= i < Z.of_nat n -> load (firstn n a) i = load a i.
Proof.
  intros H. unfold load. destruct (0 <=? i); [|reflexivity].
  rewrite nth_error_firstn.
  replace (Z.to_nat i <? n)%nat with true; [reflexivity|].
  symmetry. apply Nat.ltb_lt. lia.
Qed.

Lemma load_map f a i :
  load (map f a) i = option_map f (load a i).
Proof.
  unfold load. destruct (0 <=? i); [|reflexivity].
  apply nth_error_map.
Qed.

Section ForLoop.

Context {S : Type}.
Variable N : Z.
Variable body : Z -> S -> option S.
Variable Inv : Z -> S -> Prop.

Hypothesis N_range : 0 <= N < U64.modulus.
Hypothesis body_step :
  forall i s, 0 <= i < N -> Inv i s ->
              exists s', body i s = Some s' /\ Inv (i + 1) s'.

(** With fuel for the remaining iterations the loop runs to its end and
    carries the invariant from [i] to [N]. *)
Lemma for_loop_from fuel :
  forall i s,
    0 <= i <= N -> (Z.to_nat (N - i) <= fuel)%nat -> Inv i s ->
    exists s', for_loop fuel N i body s = Some s' /\ Inv N s'.
Proof.
  induction fuel as [|fuel IH]; intros i s Hi Hf HI.
  - assert (i = N) by lia. subst i. exists s. simpl.
    rewrite Z.ltb_irrefl. auto.
  - simpl. destruct (i <? N) eqn:E.
    + apply Z.ltb_lt in E.
      destruct (body_step i s) as [s' [Hb HI']]; [lia|exact HI|].
      rewrite Hb. cbn [bind].
      assert (Hw : U64.add i 1 = i + 1).
      { unfold U64.add. apply wrap_small. unfold U64.in_range. lia. }
      rewrite Hw. apply IH; [lia|lia|exact HI'].
    + apply Z.ltb_ge in E. assert (i = N) by lia. subst i.
      exists s. auto.
Qed.

Lemma for_loop_all s :
  Inv 0 s ->
  exists s', for_loop (Z.to_nat N) N 0 body s = Some s' /\ Inv N s'.
Proof.
  intros H. apply for_loop_from; [lia|lia|exact H].
Qed.

End ForLoop.

(** ** The two loops of [SecureString]

The constructor and [decrypt] have the same text in both headers, up
to the function applied to each unit; the lemmas are stated once,
over that function. *)

Section Loops.

Variable N : Z.
Hypothesis N_range : 0 <= N < U64.modulus.

Section Constructor.

Variable obf : Z -> Z -> option Z.
Variable input : list Z.
Hypothesis input_length : Z.of_nat (length input) = N.
Hypothesis obf_total :
  forall c i, 0 <= i < N -> exists e, obf c i = Some e.

Lemma ctor_loop :
  exists enc,
    for_loop (Z.to_nat N) N 0
      (fun i enc => c <- load input i ;; e <- obf c i ;; store enc i e)
      (repeat 0 (Z.to_nat N)) = Some enc
    /\ length enc = length input
    /\ forall i, 0 <= i < N ->
         exists c, load input i = Some c /\ load enc i = obf c i.
Proof.
  pose (Inv := fun (i : Z) (enc : list Z) =>
    length enc = length input
    /\ forall j, 0 <= j < i ->
         exists c, load input j = Some c /\ load enc j = obf c j).
  destruct (for_loop_all N
              (fun i enc =>
                 c <- load input i ;; e <- obf c i ;; store enc i e)
              Inv N_range) with (s := repeat 0 (Z.to_nat N))
    as [enc [Hrun [HL HI]]].
  - intros i enc Hi [HL HI].
    destruct (load_some input i) as [c Hc]; [lia|].
    destruct (obf_total c i Hi) as [e He].
    rewrite Hc. cbn [bind]. rewrite He. cbn [bind].
    rewrite store_some by lia.
    eexists. split; [reflexivity|]. split.
    + rewrite update_length. exact HL.
    + intros j Hj. destruct (Z.eq_dec j i) as [->|Hne].
      * exists c. split; [exact Hc|].
        rewrite load_update_same by lia. symmetry. exact He.
      * destruct (HI j) as [c' [Hc' Hl]]; [lia|].
        exists c'. split; [exact Hc'|].
        rewrite load_update_other by lia. exact Hl.
  - split.
    + rewrite repeat_length. lia.
    + intros j Hj. lia.
  - exists enc. auto.
Qed.

End Constructor.

Section Decrypt.

Variable deobf : Z -> Z -> option Z.
Variable m : Memory.
Hypothesis encrypted_length : Z.of_nat (length (encrypted m)) = N.
Hypothesis out_capacity : N <= Z.of_nat (length (out m)).
Hypothesis deobf_total :
  forall c i, 0 <= i < N -> exists d, deobf c i = Some d.

Lemma decrypt_loop :
  exists m',
    for_loop (Z.to_nat N) N 0
      (fun i m =>
         e <- load (encrypted m) i ;;
         d <- deobf e i ;;
         o <- store (out m) i d ;;
         Some (mkMemory (encrypted m) o))
      m = Some m'
    /\ encrypted m' = encrypted m
    /\ length (out m') = length (out m)
    /\ (forall i, 0 <= i < N ->
          exists e, load (encrypted m) i = Some e
                    /\ load (out m') i = deobf e i)
    /\ (forall j, ~ 0 <= j < N -> load (out m') j = load (out m) j).
Proof.
  pose (Inv := fun (i : Z) (s : Memory) =>
    encrypted s = encrypted m
    /\ length (out s) = length (out m)
    /\ (forall j, 0 <= j < i ->
          exists e, load (encrypted m) j = Some e
                    /\ load (out s) j = deobf e j)
    /\ (forall j, ~ 0 <= j < i -> load (out s) j = load (out m) j)).
  destruct (for_loop_all N
              (fun i m =>
                 e <- load (encrypted m) i ;;
                 d <- deobf e i ;;
                 o <- store (out m) i d ;;
                 Some (mkMemory (encrypted m) o))
              Inv N_range) with (s := m)
    as [m' [Hrun HI]].
  - intros i s Hi [HE [HL [HD HF]]].
    destruct (load_some (encrypted m) i) as [e He]; [lia|].
    destruct (deobf_total e i Hi) as [d Hd].
    rewrite HE, He. cbn [bind]. rewrite Hd. cbn [bind].
    rewrite store_some by lia. cbn [bind].
    eexists. split; [reflexivity|].
    unfold Inv. cbn [encrypted out].
    split; [reflexivity|]. split; [rewrite update_length; exact HL|].
    split.
    + intros j Hj. destruct (Z.eq_dec j i) as [->|Hne].
      * exists e. split; [exact He|].
        rewrite load_update_same by lia. symmetry. exact Hd.
      * destruct (HD j) as [e' [He' Hl]]; [lia|].
        exists e'. split; [exact He'|].
        rewrite load_update_other by lia. exact Hl.
    + intros j Hj. rewrite load_update_other by lia.
      apply HF. lia.
  - unfold Inv. repeat split; auto. intros j Hj. lia.
  - exists m'. split; [exact Hrun|exact HI].
Qed.

End Decrypt.

End Loops.

(** ** One code unit through [obfuscate] and back *)

Lemma keys_exist N Seed i :
  exists k1 k2 k3,
    secure_string_hpp.KeyGen.get N Seed 0 i = Some k1
    /\ secure_string_hpp.KeyGen.get N (Z.lxor Seed 0xBAADF00DDEADC0DE) 0
         (U64.sub (U64.sub N i) 1) = Some k2
    /\ secure_string_hpp.KeyGen.get N (Z.lxor Seed 0xFEEDBABECAFED00D) 0
         (U64.mul i i mod N) = Some k3
    /\ is_byte k1 /\ is_byte k2 /\ is_byte k3.
Proof.
  destruct (get_some N Seed 0 i) as [k1 [H1 B1]].
  destruct (get_some N (Z.lxor Seed 0xBAADF00DDEADC0DE) 0
              (U64.sub (U64.sub N i) 1)) as [k2 [H2 B2]].
  destruct (get_some N (Z.lxor Seed 0xFEEDBABECAFED00D) 0
              (U64.mul i i mod N)) as [k3 [H3 B3]].
  exists k1, k2, k3. auto 10.
Qed.

Lemma unit_roundtrip T N Seed c i :
  N <> 0 ->
  exists e,
    secure_string_hpp.SecureString.obfuscate T N Seed c i = Some e
    /\ is_byte e
    /\ secure_string_hpp.SecureString.deobfuscate T N Seed e i
       = Some (to_uchar c).
Proof.
  intros HN.
  destruct (keys_exist N Seed i) as [k1 [k2 [k3 [H1 [H2 [H3 [B1 [B2 B3]]]]]]]].
  pose proof K_A5_byte as BK.
  assert (Be : is_byte (Transform.encode 0xA5 (to_uchar c) i k1 k2 k3))
    by (apply encode_byte; auto with byte).
  eexists. split; [apply (obfuscate_encode T N Seed c i k1 k2 k3); auto|].
  rewrite to_CharT_byte by exact Be. split; [exact Be|].
  rewrite (deobfuscate_decode T N Seed _ i k1 k2 k3) by auto.
  rewrite to_uchar_small by exact Be.
  rewrite decode_encode by auto with byte.
  rewrite to_CharT_byte by auto with byte. reflexivity.
Qed.

Lemma unit_roundtrip_back T N Seed d i :
  N <> 0 -> is_byte d ->
  exists c,
    secure_string_hpp.SecureString.deobfuscate T N Seed d i = Some c
    /\ is_byte c
    /\ secure_string_hpp.SecureString.obfuscate T N Seed c i = Some d.
Proof.
  intros HN Hd.
  destruct (keys_exist N Seed i) as [k1 [k2 [k3 [H1 [H2 [H3 [B1 [B2 B3]]]]]]]].
  pose proof K_A5_byte as BK.
  assert (Bc : is_byte (Transform.decode 0xA5 d i k1 k2 k3))
    by (apply decode_byte; auto with byte).
  eexists. split; [apply (deobfuscate_decode T N Seed d i k1 k2 k3); auto|].
  rewrite (to_uchar_small d) by exact Hd.
  rewrite to_CharT_byte by exact Bc. split; [exact Bc|].
  rewrite (obfuscate_encode T N Seed _ i k1 k2 k3) by auto.
  rewrite to_uchar_small by exact Bc.
  rewrite encode_decode by auto with byte.
  rewrite to_CharT_byte by exact Hd. reflexivity.
Qed.

Lemma deobfuscate_some T N Seed c i :
  N <> 0 ->
  exists d, secure_string_hpp.SecureString.deobfuscate T N Seed c i = Some d
            /\ is_byte d.
Proof.
  intros HN.
  destruct (keys_exist N Seed i) as [k1 [k2 [k3 [H1 [H2 [H3 [B1 [B2 B3]]]]]]]].
  pose proof K_A5_byte as BK.
  assert (Bc : is_byte (Transform.decode 0xA5 (to_uchar c) i k1 k2 k3))
    by (apply decode_byte; auto with byte).
  eexists. split; [apply (deobfuscate_decode T N Seed c i k1 k2 k3); auto|].
  rewrite to_CharT_byte by exact Bc. exact Bc.
Qed.

Lemma keys_exist_5A N Seed i :
  exists k1 k2 k3,
    SecureString_hpp.KeyGen.get N Seed 0 i = Some k1
    /\ SecureString_hpp.KeyGen.get N (Z.lxor Seed 0xBAADF00DDEADC0DE) 0
         (Size_t.sub (Size_t.sub N i) 1) = Some k2
    /\ SecureString_hpp.KeyGen.get N (Z.lxor Seed 0xFEEDBABECAFED00D) 0
         (Size_t.mul i i mod N) = Some k3
    /\ is_byte k1 /\ is_byte k2 /\ is_byte k3.
Proof.
  destruct (keys_exist N Seed i) as [k1 [k2 [k3 H]]].
  exists k1, k2, k3.
  repeat match goal with
    | |- context [SecureString_hpp.KeyGen.get ?a ?b ?c ?d] =>
        rewrite (KeyGen_get_same a b c d)
    end.
  unfold Size_t.sub, Size_t.mul. unfold U64.sub, U64.mul in H. exact H.
Qed.

Lemma unit_roundtrip_5A T N Seed c i :
  N <> 0 ->
  exists e,
    SecureString_hpp.SecureString.obfuscate T N Seed c i = Some e
    /\ is_byte e
    /\ SecureString_hpp.SecureString.deobfuscate T N Seed e i
       = Some (to_uchar c).
Proof.
  intros HN.
  destruct (keys_exist_5A N Seed i)
    as [k1 [k2 [k3 [H1 [H2 [H3 [B1 [B2 B3]]]]]]]].
  pose proof K_5A_byte as BK.
  assert (Be : is_byte (Transform.encode 0x5A (to_uchar c) i k1 k2 k3))
    by (apply encode_byte; auto with byte).
  eexists. split; [apply (obfuscate_encode_5A T N Seed c i k1 k2 k3); auto|].
  rewrite to_CharT_byte by exact Be. split; [exact Be|].
  rewrite (deobfuscate_decode_5A T N Seed _ i k1 k2 k3) by auto.
  rewrite to_uchar_small by exact Be.
  rewrite decode_encode by auto with byte.
  rewrite to_CharT_byte by auto with byte. reflexivity.
Qed.

Lemma deobfuscate_some_5A T N Seed c i :
  N <> 0 ->
  exists d, SecureString_hpp.SecureString.deobfuscate T N Seed c i = Some d
            /\ is_byte d.
Proof.
  intros HN.
  destruct (keys_exist_5A N Seed i)
    as [k1 [k2 [k3 [H1 [H2 [H3 [B1 [B2 B3]]]]]]]].
  pose proof K_5A_byte as BK.
  assert (Bc : is_byte (Transform.decode 0x5A (to_uchar c) i k1 k2 k3))
    by (apply decode_byte; auto with byte).
  eexists. split; [apply (deobfuscate_decode_5A T N Seed c i k1 k2 k3); auto|].
  rewrite to_CharT_byte by exact Bc. exact Bc.
Qed.

(** ** A literal through the constructor and [decrypt] *)

Lemma decrypt_ctor T N Seed P out0 :
  1 <= N < U64.modulus ->
  Z.of_nat (length P) = N ->
  N <= Z.of_nat (length out0) ->
  exists e o,
    secure_string_hpp.SecureString.ctor T N Seed P = Some e
    /\ Z.of_nat (length e) = N
    /\ secure_string_hpp.SecureString.decrypt T N Seed (mkMemory e out0)
       = Some (mkMemory e o)
    /\ length o = length out0
    /\ firstn (Z.to_nat N) o = map to_uchar P.
Proof.
  intros HN HP Hout.
  assert (HN0 : N <> 0) by lia.
  assert (HR : 0 <= N < U64.modulus) by lia.
  destruct (ctor_loop N HR
              (secure_string_hpp.SecureString.obfuscate T N Seed) P HP)
    as [e [Hc [HL He]]].
  { intros c i _. destruct (unit_roundtrip T N Seed c i HN0) as [x [Hx _]].
    eauto. }
  destruct (decrypt_loop N HR
              (secure_string_hpp.SecureString.deobfuscate T N Seed)
              (mkMemory e out0))
    as [m' [Hd [HE [HLo [HD HF]]]]].
  { cbn [encrypted]. lia. }
  { cbn [out]. exact Hout. }
  { intros c i _. destruct (deobfuscate_some T N Seed c i HN0) as [x [Hx _]].
    eauto. }
  destruct m' as [e' o]. cbn [encrypted out] in *. subst e'.
  exists e, o. split; [exact Hc|]. split; [lia|]. split; [exact Hd|].
  split; [exact HLo|].
  apply load_ext.
  - rewrite length_firstn, length_map. lia.
  - intros i Hi. rewrite length_firstn in Hi.
    rewrite load_firstn by lia. rewrite load_map.
    destruct (HD i) as [x [Hx Ho]]; [lia|].
    destruct (He i) as [c [Hc' Hec]]; [lia|].
    rewrite Ho, Hc'. cbn [option_map].
    destruct (unit_roundtrip T N Seed c i HN0) as [x' [Hx' [_ Hback]]].
    assert (x = x') by congruence. subst x'. exact Hback.
Qed.

Lemma decrypt_ctor_5A T N Seed P out0 :
  1 <= N < U64.modulus ->
  Z.of_nat (length P) = N ->
  N <= Z.of_nat (length out0) ->
  exists e o,
    SecureString_hpp.SecureString.ctor T N Seed P = Some e
    /\ Z.of_nat (length e) = N
    /\ SecureString_hpp.SecureString.decrypt T N Seed (mkMemory e out0)
       = Some (mkMemory e o)
    /\ length o = length out0
    /\ firstn (Z.to_nat N) o = map to_uchar P.
Proof.
  intros HN HP Hout.
  assert (HN0 : N <> 0) by lia.
  assert (HR : 0 <= N < U64.modulus) by lia.
  destruct (ctor_loop N HR
              (SecureString_hpp.SecureString.obfuscate T N Seed) P HP)
    as [e [Hc [HL He]]].
  { intros c i _.
    destruct (unit_roundtrip_5A T N Seed c i HN0) as [x [Hx _]]. eauto. }
  destruct (decrypt_loop N HR
              (SecureString_hpp.SecureString.deobfuscate T N Seed)
              (mkMemory e out0))
    as [m' [Hd [HE [HLo [HD HF]]]]].
  { cbn [encrypted]. lia. }
  { cbn [out]. exact Hout. }
  { intros c i _.
    destruct (deobfuscate_some_5A T N Seed c i HN0) as [x [Hx _]]. eauto. }
  destruct m' as [e' o]. cbn [encrypted out] in *. subst e'.
  exists e, o. split; [exact Hc|]. split; [lia|]. split; [exact Hd|].
  split; [exact HLo|].
  apply load_ext.
  - rewrite length_firstn, length_map. lia.
  - intros i Hi. rewrite length_firstn in Hi.
    rewrite load_firstn by lia. rewrite load_map.
    destruct (HD i) as [x [Hx Ho]]; [lia|].
    destruct (He i) as [c [Hc' Hec]]; [lia|].
    rewrite Ho, Hc'. cbn [option_map].
    destruct (unit_roundtrip_5A T N Seed c i HN0) as [x' [Hx' [_ Hback]]].
    assert (x = x') by congruence. subst x'. exact Hback.
Qed.

Lemma map_to_uchar_bytes P : Forall is_byte P -> map to_uchar P = P.
Proof.
  induction 1 as [|c l Hc _ IH]; simpl; [reflexivity|].
  rewrite IH, to_uchar_small by exact Hc. reflexivity.
Qed.

Lemma bytes_NoDup : NoDup bytes.
Proof.
  unfold bytes, below. apply Injective_map_NoDup.
  - intros x y. apply Nat2Z.inj.
  - apply seq_NoDup.
Qed.

Lemma in_bytes x : In x bytes <-> is_byte x.
Proof.
  unfold bytes, is_byte. split; intros H.
  - apply below_in in H. lia.
  - apply in_below. lia.
Qed.

Lemma shiftr_8_byte x : is_byte x -> Z.shiftr x 8 = 0.
Proof.
  unfold is_byte. intros H. rewrite Z.shiftr_div_pow2 by lia.
  apply Z.div_small. exact H.
Qed.

(** * The properties of the specification *)

(** C1 (round trip), at a wide literal.  The constructor and [decrypt]
    of both headers, run on the two-unit [wchar_t] literal
    [{0x0416, 0}] with seed 1, give back [{0x16, 0}]: the high byte of
    the first unit is lost, so the round trip of the specification
    fails for 16-bit code units. *)
Theorem C1_wide_literal_not_recovered :
  (e <- secure_string_hpp.SecureString.ctor wchar_t 2 1 [0x0416; 0] ;;
   secure_string_hpp.SecureString.decrypt wchar_t 2 1 (mkMemory e [0; 0]))
  = Some (mkMemory [60; 8] [0x16; 0])
  /\ (e <- SecureString_hpp.SecureString.ctor wchar_t 2 1 [0x0416; 0] ;;
      SecureString_hpp.SecureString.decrypt wchar_t 2 1 (mkMemory e [0; 0]))
     = Some (mkMemory [195; 247] [0x16; 0]).
Proof. split; vm_compute; reflexivity. Qed.

(** Round trip for literals whose units are bytes (every [char] literal,
    and the [wchar_t] literals without a unit above 255): for every
    length [N >= 1], every seed and every such [P], [decrypt] applied to
    the array built by the constructor writes [P] back, in both
    headers. *)
Theorem roundtrip_of_bytes T N Seed P out0 :
  1 <= N < U64.modulus ->
  Z.of_nat (length P) = N ->
  Forall is_byte P ->
  N <= Z.of_nat (length out0) ->
  recovers secure_string_hpp.SecureString.ctor
    secure_string_hpp.SecureString.decrypt T N Seed P out0
  /\ recovers SecureString_hpp.SecureString.ctor
       SecureString_hpp.SecureString.decrypt T N Seed P out0.
Proof.
  intros HN HP HB Hout. unfold recovers. split.
  - destruct (decrypt_ctor T N Seed P out0 HN HP Hout)
      as [e [o [Hc [_ [Hd [_ Hf]]]]]].
    exists e, o. rewrite Hf, map_to_uchar_bytes by exact HB. auto.
  - destruct (decrypt_ctor_5A T N Seed P out0 HN HP Hout)
      as [e [o [Hc [_ [Hd [_ Hf]]]]]].
    exists e, o. rewrite Hf, map_to_uchar_bytes by exact HB. auto.
Qed.

(** The literal "Hello" with its terminator, seed 1. *)
Lemma roundtrip_of_bytes_witness :
  recovers secure_string_hpp.SecureString.ctor
    secure_string_hpp.SecureString.decrypt char 6 1
    [72; 101; 108; 108; 111; 0] [0; 0; 0; 0; 0; 0]
  /\ recovers SecureString_hpp.SecureString.ctor
       SecureString_hpp.SecureString.decrypt char 6 1
       [72; 101; 108; 108; 111; 0] [0; 0; 0; 0; 0; 0].
Proof.
  apply (roundtrip_of_bytes char 6 1
           [72; 101; 108; 108; 111; 0] [0; 0; 0; 0; 0; 0]).
  - unfold U64.modulus. lia.
  - reflexivity.
  - repeat constructor; unfold is_byte; lia.
  - simpl. lia.
Defined.

(** C2 (per-position bijectivity).  For every [N >= 1], seed and
    position [i < N], [obfuscate] at position [i] maps the 256 byte
    values onto a permutation of the 256 byte values, and [deobfuscate]
    at the same position is its inverse on both sides, and the only
    one. *)
Theorem C2_obfuscate_permutes_bytes T N Seed i :
  1 <= N -> 0 <= i < N -> permutes_bytes T N Seed i.
Proof.
  intros HN Hi. assert (HN0 : N <> 0) by lia.
  unfold permutes_bytes. cbv zeta.
  assert (Hf : forall c, is_byte c ->
    secure_string_hpp.SecureString.obfuscate T N Seed c i
    = Some (value (secure_string_hpp.SecureString.obfuscate T N Seed c i))
    /\ is_byte (value (secure_string_hpp.SecureString.obfuscate T N Seed c i))
    /\ value (secure_string_hpp.SecureString.deobfuscate T N Seed
                (value (secure_string_hpp.SecureString.obfuscate
                          T N Seed c i)) i) = c).
  { intros c Hc.
    destruct (unit_roundtrip T N Seed c i HN0) as [e [He [Be Hback]]].
    rewrite He. cbn [value]. rewrite Hback. cbn [value].
    rewrite to_uchar_small by exact Hc. auto. }
  assert (Hg : forall d, is_byte d ->
    secure_string_hpp.SecureString.deobfuscate T N Seed d i
    = Some (value (secure_string_hpp.SecureString.deobfuscate T N Seed d i))
    /\ is_byte (value (secure_string_hpp.SecureString.deobfuscate
                         T N Seed d i))
    /\ value (secure_string_hpp.SecureString.obfuscate T N Seed
                (value (secure_string_hpp.SecureString.deobfuscate
                          T N Seed d i)) i) = d).
  { intros d Hd.
    destruct (unit_roundtrip_back T N Seed d i HN0 Hd) as [c [Hc [Bc Hback]]].
    rewrite Hc. cbn [value]. rewrite Hback. cbn [value]. auto. }
  split; [intros c Hc; destruct (Hf c Hc) as [? [? _]]; auto|].
  split; [intros d Hd; destruct (Hg d Hd) as [? [? _]]; auto|].
  split.
  { apply Permutation_map_same_l.
    - apply Injective_map_NoDup_in; [|apply bytes_NoDup].
      intros x y Hx Hy E. apply in_bytes in Hx, Hy.
      destruct (Hf x Hx) as [_ [_ <-]]. destruct (Hf y Hy) as [_ [_ <-]].
      rewrite E. reflexivity.
    - intros y Hy. apply in_map_iff in Hy. destruct Hy as [x [<- Hx]].
      apply in_bytes in Hx. apply in_bytes. apply (Hf x Hx). }
  split; [intros c Hc; apply (Hf c Hc)|].
  split; [intros d Hd; apply (Hg d Hd)|].
  intros h Hh d Hd.
  destruct (Hg d Hd) as [_ [Bg Hfg]].
  rewrite <- Hfg at 1. apply Hh. exact Bg.
Qed.

(** Position 2 of a six-unit [char] literal, seed 1. *)
Lemma C2_obfuscate_permutes_bytes_witness :
  (1 <= 6 /\ 0 <= 2 < 6) /\ permutes_bytes char 6 1 2.
Proof.
  split; [lia|]. apply (C2_obfuscate_permutes_bytes char 6 1 2); lia.
Defined.

Lemma obfuscate_low_byte T N Seed c i :
  N <> 0 ->
  secure_string_hpp.SecureString.obfuscate T N Seed (to_uchar c) i
  = secure_string_hpp.SecureString.obfuscate T N Seed c i.
Proof.
  intros HN.
  destruct (keys_exist N Seed i) as [k1 [k2 [k3 [H1 [H2 [H3 _]]]]]].
  rewrite !(obfuscate_encode T N Seed _ i k1 k2 k3) by auto.
  unfold to_uchar. rewrite Z.mod_mod by lia. reflexivity.
Qed.

Lemma obfuscate_low_byte_5A T N Seed c i :
  N <> 0 ->
  SecureString_hpp.SecureString.obfuscate T N Seed (to_uchar c) i
  = SecureString_hpp.SecureString.obfuscate T N Seed c i.
Proof.
  intros HN.
  destruct (keys_exist_5A N Seed i) as [k1 [k2 [k3 [H1 [H2 [H3 _]]]]]].
  rewrite !(obfuscate_encode_5A T N Seed _ i k1 k2 k3) by auto.
  unfold to_uchar. rewrite Z.mod_mod by lia. reflexivity.
Qed.

Lemma truncates_unit_from
    (obfuscate deobfuscate : CharT -> Z -> Z -> Z -> Z -> option Z)
    N Seed u i :
  (forall c, exists e,
      obfuscate wchar_t N Seed c i = Some e /\ is_byte e
      /\ deobfuscate wchar_t N Seed e i = Some (to_uchar c)) ->
  (forall c, exists d,
      deobfuscate wchar_t N Seed c i = Some d /\ is_byte d) ->
  (forall c, obfuscate wchar_t N Seed (to_uchar c) i
             = obfuscate wchar_t N Seed c i) ->
  truncates_unit obfuscate deobfuscate N Seed u i.
Proof.
  intros Hrt Hd Hlow. unfold truncates_unit.
  destruct (Hrt u) as [e [He [Be Hback]]].
  destruct (Hd u) as [d [Hdu Bd]].
  exists e, d. repeat split; auto using shiftr_8_byte.
  - rewrite <- He. apply (Hlow u).
  - intros Hu E. rewrite Hback in E. injection E as E.
    unfold to_uchar in E. pose proof (Z.mod_pos_bound u 256). lia.
Qed.

(** C3 (wide code units are cut to their low byte).  For
    [CharT = wchar_t], in both headers: [obfuscate] and [deobfuscate]
    return units whose high 8 bits are zero; [obfuscate] of a unit is
    [obfuscate] of its low byte, and [deobfuscate] of the result is that
    low byte, so a unit above 255 is not recovered; and [decrypt] of the
    array built from a wide literal writes the low byte of every
    unit. *)
Theorem C3_wide_units_truncated N Seed u i P out0 :
  1 <= N < U64.modulus ->
  Z.of_nat (length P) = N ->
  N <= Z.of_nat (length out0) ->
  truncates_unit secure_string_hpp.SecureString.obfuscate
    secure_string_hpp.SecureString.deobfuscate N Seed u i
  /\ truncates_unit SecureString_hpp.SecureString.obfuscate
       SecureString_hpp.SecureString.deobfuscate N Seed u i
  /\ truncates_literal secure_string_hpp.SecureString.ctor
       secure_string_hpp.SecureString.decrypt N Seed P out0
  /\ truncates_literal SecureString_hpp.SecureString.ctor
       SecureString_hpp.SecureString.decrypt N Seed P out0.
Proof.
  intros HN HP Hout. assert (HN0 : N <> 0) by lia.
  split; [|split; [|split]].
  - apply truncates_unit_from.
    + intros c. apply unit_roundtrip, HN0.
    + intros c. apply deobfuscate_some, HN0.
    + intros c. apply obfuscate_low_byte, HN0.
  - apply truncates_unit_from.
    + intros c. apply unit_roundtrip_5A, HN0.
    + intros c. apply deobfuscate_some_5A, HN0.
    + intros c. apply obfuscate_low_byte_5A, HN0.
  - destruct (decrypt_ctor wchar_t N Seed P out0 HN HP Hout)
      as [e [o [Hc [_ [Hd [_ Hf]]]]]].
    exists e, o. auto.
  - destruct (decrypt_ctor_5A wchar_t N Seed P out0 HN HP Hout)
      as [e [o [Hc [_ [Hd [_ Hf]]]]]].
    exists e, o. auto.
Qed.

(** The wide literal [{0x0416, 0}], seed 1. *)
Lemma C3_wide_units_truncated_witness :
  truncates_unit secure_string_hpp.SecureString.obfuscate
    secure_string_hpp.SecureString.deobfuscate 2 1 0x0416 0
  /\ truncates_unit SecureString_hpp.SecureString.obfuscate
       SecureString_hpp.SecureString.deobfuscate 2 1 0x0416 0
  /\ truncates_literal secure_string_hpp.SecureString.ctor
       secure_string_hpp.SecureString.decrypt 2 1 [0x0416; 0] [0; 0]
  /\ truncates_literal SecureString_hpp.SecureString.ctor
       SecureString_hpp.SecureString.decrypt 2 1 [0x0416; 0] [0; 0].
Proof.
  apply (C3_wide_units_truncated 2 1 0x0416 0 [0x0416; 0] [0; 0]).
  - unfold U64.modulus. lia.
  - reflexivity.
  - simpl. lia.
Defined.

(** ** The final rotation of [KeyGen::get] *)

Lemma rotation_range Round index :
  1 <= secure_string_hpp.KeyGen.rotation Round index <= 8.
Proof.
  rewrite rotation_value. pose proof (mod8_count (index + Round)). lia.
Qed.

Lemma land_255 x : Z.land x 0xFF = x mod 256.
Proof. change 0xFF with (Z.ones 8). rewrite Z.land_ones by lia. reflexivity. Qed.

Lemma combined_byte N Seed Round index :
  0 <= index < 256 ->
  is_byte (secure_string_hpp.KeyGen.combined N Seed Round index).
Proof.
  intros H. unfold secure_string_hpp.KeyGen.combined. cbv zeta.
  rewrite land_255. auto 10 with byte.
Qed.

(** C4 (the final rotation of the key stream), as the code has it.
    [KeyGen::get] passes [ROL8] the count [(index + Round) mod 8 + 1],
    which lies in [1, 8] and is never 0.  [ROL8] reduces the count modulo
    8: on a byte it is the left rotation by [count mod 8] bits, so it
    moves some byte whenever the count is not 8, and it is the identity
    map on bytes when the count is 8, that is when
    [(index + Round) mod 8 = 7].  The rotated value is a byte when
    [index < 256]. *)
Theorem C4_rotation_amount N Seed Round index :
  let r := secure_string_hpp.KeyGen.rotation Round index in
  r = (index + Round) mod 8 + 1
  /\ 1 <= r <= 8
  /\ secure_string_hpp.KeyGen.get N Seed Round index
     = secure_string_hpp.ROL8_u64
         (secure_string_hpp.KeyGen.combined N Seed Round index) r
  /\ (forall b, is_byte b ->
        secure_string_hpp.ROL8_u64 b r
        = Some (Transform.rotate_left_8 b (r mod 8)))
  /\ (r <> 8 -> secure_string_hpp.ROL8_u64 1 r <> Some 1)
  /\ (r = 8 -> forall b, is_byte b -> secure_string_hpp.ROL8_u64 b r = Some b)
  /\ (0 <= index < 256 ->
      is_byte (secure_string_hpp.KeyGen.combined N Seed Round index)).
Proof.
  cbv zeta. pose proof (rotation_range Round index) as Hr.
  split; [apply rotation_value|]. split; [exact Hr|].
  split; [reflexivity|].
  split; [intros b Hb; apply ROL8_u64_rotate; [exact Hb|lia]|].
  split.
  - intros Hne E.
    rewrite ROL8_u64_rotate in E by (unfold is_byte; lia).
    injection E as E.
    rewrite Z.mod_small in E by lia.
    apply (rotate_left_moves (secure_string_hpp.KeyGen.rotation Round index));
      [lia|exact E].
  - split; [|apply combined_byte].
    intros E b Hb. rewrite E.
    rewrite ROL8_u64_rotate by (try exact Hb; lia).
    change (8 mod 8) with 0. rewrite rotate_left_0 by exact Hb. reflexivity.
Qed.

(** C4, where the specification fails: at [index = 7], [Round = 0] (with
    [N = 8], seed 0) the count is 8, [ROL8] with that count returns every
    byte unchanged, and [get] returns the combined byte as it is. *)
Lemma C4_rotation_by_8_is_identity :
  secure_string_hpp.KeyGen.rotation 0 7 = 8
  /\ forallb (fun b =>
                opt_eqb (secure_string_hpp.ROL8_u64 b
                           (secure_string_hpp.KeyGen.rotation 0 7)) b)
       bytes = true
  /\ secure_string_hpp.KeyGen.combined 8 0 0 7 = 237
  /\ secure_string_hpp.KeyGen.get 8 0 0 7 = Some 237.
Proof. repeat split; vm_compute; reflexivity. Qed.

(** ** The byte fold of [get_byte] *)

Lemma mix_range x : U64.in_range (secure_string_hpp.KeyGen.mix x).
Proof.
  unfold secure_string_hpp.KeyGen.mix. cbv zeta.
  set (y := U64.mul _ 0xA5CB3E2C1F16F4C5).
  assert (Hy : U64.in_range y) by apply wrap_range.
  unfold U64.in_range, U64.modulus in *.
  apply (lxor_bound 64); [lia|exact Hy|].
  rewrite Z.shiftr_div_pow2 by lia. split.
  - apply Z.div_pos; lia.
  - apply Z.le_lt_trans with y; [|lia].
    apply Z.div_le_upper_bound; lia.
Qed.

Lemma mixed_range Seed Round index :
  U64.in_range (secure_string_hpp.KeyGen.mixed Seed Round index).
Proof.
  unfold secure_string_hpp.KeyGen.mixed. cbv zeta.
  pose proof (mix_range (Z.lxor Seed (U64.mul index 0x3C6EF372FE94F82B))).
  pose proof (wrap_range (Round * 0x0F1E2D3C4B5A6978)).
  unfold U64.mul at 2. unfold U64.in_range, U64.modulus in *.
  apply (lxor_bound 64); lia.
Qed.

Lemma folded_halves Seed Round index :
  secure_string_hpp.KeyGen.folded Seed Round index
  = Z.lxor (secure_string_hpp.KeyGen.mixed Seed Round index / 2 ^ 32)
      (secure_string_hpp.KeyGen.mixed Seed Round index mod 2 ^ 32).
Proof.
  unfold secure_string_hpp.KeyGen.folded. cbv zeta.
  rewrite Z.shiftr_div_pow2 by lia.
  change 0xFFFFFFFF with (Z.ones 32). rewrite Z.land_ones by lia.
  reflexivity.
Qed.

Lemma folded_range Seed Round index :
  0 <= secure_string_hpp.KeyGen.folded Seed Round index < 2 ^ 32.
Proof.
  rewrite folded_halves.
  pose proof (mixed_range Seed Round index) as H.
  unfold U64.in_range, U64.modulus in H.
  apply (lxor_bound 32); [lia| |apply Z.mod_pos_bound; lia].
  split; [apply Z.div_pos; lia|].
  apply Z.div_lt_upper_bound; lia.
Qed.

Lemma fold_three_lanes_spec v :
  to_uchar (Z.lxor (Z.lxor v (Z.shiftr v 16)) (Z.shiftr v 8))
  = fold_three_lanes v.
Proof.
  unfold to_uchar, fold_three_lanes, lane.
  change 256 with (2 ^ 8). rewrite <- Z.land_ones by lia.
  change (8 * 0) with 0. change (8 * 1) with 8. change (8 * 2) with 16.
  rewrite Z.shiftr_0_r. change 0xFF with (Z.ones 8).
  apply Z.bits_inj'. intros n Hn.
  rewrite !Z.lxor_spec, !Z.land_spec, !Z.lxor_spec.
  destruct (Z.testbit (Z.ones 8) n), (Z.testbit v n),
    (Z.testbit (Z.shiftr v 16) n), (Z.testbit (Z.shiftr v 8) n);
    reflexivity.
Qed.

(** C5 (the byte fold), as the code has it.  The mixed value with the
    round folded in is a 64-bit value; [get_byte] XORs its upper 32 bits
    against its lower 32 bits, and then returns the XOR of byte lanes 0,
    1 and 2 of that 32-bit value.  Lane 3 (bits 24 to 31) is left out:
    the XOR of all four lanes is the result XORed with lane 3. *)
Theorem C5_get_byte_folds_three_lanes Seed Round index :
  let val := secure_string_hpp.KeyGen.mixed Seed Round index in
  let v := secure_string_hpp.KeyGen.folded Seed Round index in
  0 <= val < 2 ^ 64
  /\ v = Z.lxor (val / 2 ^ 32) (val mod 2 ^ 32)
  /\ 0 <= v < 2 ^ 32
  /\ secure_string_hpp.KeyGen.get_byte Seed Round index = fold_three_lanes v
  /\ fold_four_lanes v
     = Z.lxor (secure_string_hpp.KeyGen.get_byte Seed Round index) (lane 3 v).
Proof.
  cbv zeta.
  assert (E : secure_string_hpp.KeyGen.get_byte Seed Round index
              = fold_three_lanes
                  (secure_string_hpp.KeyGen.folded Seed Round index)).
  { unfold secure_string_hpp.KeyGen.get_byte. cbv zeta.
    apply fold_three_lanes_spec. }
  split; [apply mixed_range|].
  split; [apply folded_halves|].
  split; [apply folded_range|].
  split; [exact E|].
  rewrite E. generalize (secure_string_hpp.KeyGen.folded Seed Round index).
  intros v. unfold fold_four_lanes, fold_three_lanes. reflexivity.
Qed.

(** C5, where the specification fails: for seed 1, round 0 and index 0 the 32-bit
    value has the byte lanes 140, 30, 79 and 203; [get_byte] returns
    [140 xor 30 xor 79 = 221], while the XOR of all four lanes is 22. *)
Lemma C5_fourth_lane_not_folded :
  secure_string_hpp.KeyGen.folded 1 0 0 = 3410960012
  /\ map (fun k => lane k (secure_string_hpp.KeyGen.folded 1 0 0))
       [0; 1; 2; 3] = [140; 30; 79; 203]
  /\ secure_string_hpp.KeyGen.get_byte 1 0 0 = 221
  /\ fold_four_lanes (secure_string_hpp.KeyGen.folded 1 0 0) = 22.
Proof. repeat split; vm_compute; reflexivity. Qed.

(** ** Key derivation *)

Lemma sub_sub_1 N i :
  0 <= i < N -> N < U64.modulus -> U64.sub (U64.sub N i) 1 = N - i - 1.
Proof.
  intros Hi HN. unfold U64.sub.
  rewrite (wrap_small (N - i)) by (unfold U64.in_range; lia).
  apply wrap_small. unfold U64.in_range. lia.
Qed.

Lemma square_small N i :
  0 <= i < 2 ^ 32 -> (i * i) mod 2 ^ 64 mod N = (i * i) mod N.
Proof.
  intros Hi. rewrite (Z.mod_small (i * i)); [reflexivity|]. nia.
Qed.

(** C6 (key derivation).  For every [N >= 1], seed and position
    [i < N], [obfuscate] and [deobfuscate] run the encode and the decode
    pipeline with one key triple: [k1 = KeyGen<N, Seed, 0>::get(i)],
    [k2 = KeyGen<N, Seed ^ K1, 0>::get(N - i - 1)] and
    [k3 = KeyGen<N, Seed ^ K2, 0>::get((i * i) % N)], the product being
    the 64-bit one (it is [i * i] itself when [i < 2^32]); [K1] and [K2]
    are 64-bit constants, distinct from each other and from the magic
    and round constants of the key generator. *)
Theorem C6_key_derivation T N Seed i :
  1 <= N < U64.modulus -> 0 <= i < N -> derives_keys T N Seed i.
Proof.
  intros HN Hi. assert (HN0 : N <> 0) by lia.
  destruct (keys_exist N Seed i) as [k1 [k2 [k3 [H1 [H2 [H3 _]]]]]].
  exists k1, k2, k3.
  split; [exact H1|].
  split; [rewrite <- (sub_sub_1 N i) by lia; exact H2|].
  split; [exact H3|].
  split; [intros c; apply obfuscate_encode; auto|].
  split; [intros c; apply deobfuscate_decode; auto|].
  split; [intros Hs; apply square_small; lia|].
  split.
  - repeat constructor; unfold U64.modulus; lia.
  - repeat constructor; simpl; intuition lia.
Qed.

(** Position 2 of a six-unit [char] literal, seed 1. *)
Lemma C6_key_derivation_witness :
  (1 <= 6 < U64.modulus /\ 0 <= 2 < 6) /\ derives_keys char 6 1 2.
Proof.
  assert (H : 1 <= 6 < U64.modulus) by (unfold U64.modulus; lia).
  split; [split; [exact H|lia]|].
  apply (C6_key_derivation char 6 1 2); [exact H|lia].
Defined.

(** ** The frame of [decrypt] *)

Lemma for_loop_preserves {S : Type} (Pr : S -> Prop) N
    (body : Z -> S -> option S) :
  (forall i s s', body i s = Some s' -> Pr s -> Pr s') ->
  forall fuel i s s',
    for_loop fuel N i body s = Some s' -> Pr s -> Pr s'.
Proof.
  intros Hbody. induction fuel as [|fuel IH]; intros i s s' Hrun Hs;
    simpl in Hrun; destruct (i <? N); try discriminate;
    try (injection Hrun as <-; exact Hs).
  destruct (body i s) as [s1|] eqn:E; cbn [bind] in Hrun; [|discriminate].
  eapply IH; [exact Hrun|]. eapply Hbody; eauto.
Qed.

Lemma decrypt_keeps_encrypted T N Seed m m' :
  secure_string_hpp.SecureString.decrypt T N Seed m = Some m' ->
  encrypted m' = encrypted m.
Proof.
  unfold secure_string_hpp.SecureString.decrypt. intros H.
  apply (for_loop_preserves (fun s => encrypted s = encrypted m)) in H;
    [exact H| |reflexivity].
  intros i s s' Hb Hs.
  destruct (load (encrypted s) i) as [e|]; cbn [bind] in Hb; [|discriminate].
  destruct (secure_string_hpp.SecureString.deobfuscate T N Seed e i)
    as [d|]; cbn [bind] in Hb; [|discriminate].
  destruct (store (out s) i d) as [o|]; cbn [bind] in Hb; [|discriminate].
  injection Hb as <-. exact Hs.
Qed.

Lemma run_keeps_encrypted T N Seed ops :
  forall m m', run T N Seed ops m = Some m' -> encrypted m' = encrypted m.
Proof.
  induction ops as [|o ops IH]; intros m m' H; simpl in H.
  - injection H as <-. reflexivity.
  - destruct (apply_op T N Seed o m) as [m1|] eqn:E; cbn [bind] in H;
      [|discriminate].
    rewrite (IH _ _ H).
    destruct o; simpl in E.
    + apply decrypt_keeps_encrypted in E. exact E.
    + injection E as <-. reflexivity.
    + injection E as <-. reflexivity.
Qed.

(** C7 (frame of [decrypt]).  For every object whose array has [N >= 1]
    units and every destination of capacity at least [N], [decrypt]
    returns, writes [out[i] = deobfuscate(encrypted[i], i)] for every
    [i] in [[0, N)], leaves every other element of the destination and
    its length as they were, and leaves [encrypted] unchanged; no
    sequence of operations on the object changes [encrypted]. *)
Theorem C7_decrypt_frame T N Seed m :
  1 <= N < U64.modulus ->
  Z.of_nat (length (encrypted m)) = N ->
  N <= Z.of_nat (length (out m)) ->
  decrypt_frame T N Seed m.
Proof.
  intros HN HE HO. assert (HN0 : N <> 0) by lia.
  assert (HR : 0 <= N < U64.modulus) by lia.
  destruct (decrypt_loop N HR
              (secure_string_hpp.SecureString.deobfuscate T N Seed) m HE HO)
    as [m' [Hd [HEq [HL [HD HF]]]]].
  { intros c i _. destruct (deobfuscate_some T N Seed c i HN0) as [d [Hd _]].
    eauto. }
  exists m'. split; [exact Hd|]. split; [exact HEq|]. split; [exact HL|].
  split; [exact HD|]. split; [exact HF|].
  intros ops m''. apply run_keeps_encrypted.
Qed.

(** The array built from "Hello" with seed 1, and a destination of
    eight units. *)
Lemma C7_decrypt_frame_witness :
  decrypt_frame char 6 1
    (mkMemory [116; 90; 234; 47; 92; 36] [1; 2; 3; 4; 5; 6; 7; 8]).
Proof.
  apply (C7_decrypt_frame char 6 1
           (mkMemory [116; 90; 234; 47; 92; 36] [1; 2; 3; 4; 5; 6; 7; 8])).
  - unfold U64.modulus. lia.
  - reflexivity.
  - simpl. lia.
Defined.

(** ** Determinism *)

(** C8 (determinism).  For every literal [P] of [N >= 1] units and every
    seed, the constructor returns one array: any two runs on the same
    [(P, N, Seed)] return the same array, its unit [i] is
    [obfuscate(P[i], i)], so it depends on nothing but [P[i]], [i], [N]
    and [Seed], and two literals that agree at a position give arrays
    that agree there.  [KeyGen::get] returns one byte for each
    [(N, Seed, Round, index)]. *)
Theorem C8_determinism T N Seed P :
  1 <= N < U64.modulus ->
  Z.of_nat (length P) = N ->
  deterministic T N Seed P.
Proof.
  intros HN HP. assert (HN0 : N <> 0) by lia.
  assert (HR : 0 <= N < U64.modulus) by lia.
  assert (Htot : forall c i, 0 <= i < N ->
            exists e,
              secure_string_hpp.SecureString.obfuscate T N Seed c i = Some e).
  { intros c i _. destruct (unit_roundtrip T N Seed c i HN0) as [x [Hx _]].
    eauto. }
  destruct (ctor_loop N HR
              (secure_string_hpp.SecureString.obfuscate T N Seed) P HP Htot)
    as [e [Hc [HL He]]].
  fold (secure_string_hpp.SecureString.ctor T N Seed P) in Hc.
  exists e. split; [exact Hc|]. split; [lia|].
  split; [intros e' He'; congruence|].
  split; [exact He|]. split.
  - intros P' e' i HP' Hc' Hi Hsame.
    destruct (ctor_loop N HR
                (secure_string_hpp.SecureString.obfuscate T N Seed) P' HP'
                Htot)
      as [e2 [Hc2 [_ He2]]].
    fold (secure_string_hpp.SecureString.ctor T N Seed P') in Hc2.
    assert (e2 = e') by congruence.
    subst e2.
    destruct (He i Hi) as [c [Hl Hle]].
    destruct (He2 i Hi) as [c' [Hl' Hle']].
    rewrite Hle, Hle'. congruence.
  - intros Round index.
    destruct (get_some N Seed Round index) as [k [Hk _]].
    exists k. split; [exact Hk|]. intros k' Hk'. congruence.
Qed.

(** The literal "Hello" with its terminator, seed 1. *)
Lemma C8_determinism_witness :
  deterministic char 6 1 [72; 101; 108; 108; 111; 0].
Proof.
  apply (C8_determinism char 6 1 [72; 101; 108; 108; 111; 0]).
  - unfold U64.modulus. lia.
  - reflexivity.
Defined.

(** ** Totality *)

Lemma byte_is_CharT T b : is_byte b -> is_CharT T b.
Proof. unfold is_byte, is_CharT. destruct T; simpl; lia. Qed.

(** Without a unit, that is for [N = 0], [obfuscate] does fault: the
    remainder [(i * i) % N] divides by zero. *)
Lemma obfuscate_faults_for_no_unit T Seed c i :
  secure_string_hpp.SecureString.obfuscate T 0 Seed c i = None.
Proof.
  unfold secure_string_hpp.SecureString.obfuscate.
  destruct (secure_string_hpp.KeyGen.get 0 Seed 0 i); [|reflexivity].
  cbn [bind].
  destruct (secure_string_hpp.KeyGen.get 0 _ 0 _); reflexivity.
Qed.

(** C9 (totality under [N >= 1]).  With [1 <= N < 2^64]: [KeyGen::get]
    returns a byte for every round and index; [obfuscate] and
    [deobfuscate] return a code unit for every unit and every [i] in
    [[0, N)], so none of their shifts, their [int] additions and
    subtractions or the remainder by [N] faults; [(i * i) % N] is the
    remainder of the wrapped product and lies in [[0, N)]; [N - i - 1]
    does not wrap and lies in [[0, N)], in [obfuscate] and inside
    [get] with round 0; the 64-bit operations land in the 64-bit range;
    the constructor returns for every literal of [N] units and [decrypt]
    for every destination of capacity at least [N]. *)
Theorem C9_total_for_positive_length T N Seed :
  1 <= N < U64.modulus -> fault_free T N Seed.
Proof.
  intros HN. assert (HN0 : N <> 0) by lia.
  assert (HR : 0 <= N < U64.modulus) by lia.
  assert (Hobf : forall c i, 0 <= i < N ->
            exists e,
              secure_string_hpp.SecureString.obfuscate T N Seed c i = Some e
              /\ is_CharT T e).
  { intros c i _. destruct (unit_roundtrip T N Seed c i HN0) as [x [Hx [Bx _]]].
    exists x. auto using byte_is_CharT. }
  assert (Hdeobf : forall c i, 0 <= i < N ->
            exists d,
              secure_string_hpp.SecureString.deobfuscate T N Seed c i = Some d
              /\ is_CharT T d).
  { intros c i _. destruct (deobfuscate_some T N Seed c i HN0) as [x [Hx Bx]].
    exists x. auto using byte_is_CharT. }
  unfold fault_free.
  split; [intros Round index; apply get_some|].
  split; [exact Hobf|]. split; [exact Hdeobf|].
  split.
  { intros i Hi. split.
    - rewrite U64_rem_ok by exact HN0. reflexivity.
    - apply Z.mod_pos_bound. lia. }
  split; [intros i Hi; split; [apply sub_sub_1; lia|lia]|].
  split.
  { intros index Hi. rewrite sub_sub_1 by lia. unfold U64.add.
    rewrite Z.add_0_r. apply wrap_small. unfold U64.in_range. lia. }
  split; [intros a b; repeat split; apply wrap_range|].
  split.
  - intros P HP.
    destruct (ctor_loop N HR
                (secure_string_hpp.SecureString.obfuscate T N Seed) P HP)
      as [e [Hc _]].
    { intros c i Hi. destruct (Hobf c i Hi) as [x [Hx _]]. eauto. }
    exists e. exact Hc.
  - intros m HE HO.
    destruct (decrypt_loop N HR
                (secure_string_hpp.SecureString.deobfuscate T N Seed) m HE HO)
      as [m' [Hd _]].
    { intros c i Hi. destruct (Hdeobf c i Hi) as [x [Hx _]]. eauto. }
    exists m'. exact Hd.
Qed.

(** Six [char] units, seed 1. *)
Lemma C9_total_for_positive_length_witness :
  1 <= 6 < U64.modulus /\ fault_free char 6 1.
Proof.
  assert (H : 1 <= 6 < U64.modulus) by (unfold U64.modulus; lia).
  split; [exact H|].
  apply (C9_total_for_positive_length char 6 1). exact H.
Defined.

(** ** The two headers *)

Lemma lxor_inj_l v a b : Z.lxor v a = Z.lxor v b -> a = b.
Proof.
  intros H. apply (f_equal (Z.lxor v)) in H.
  rewrite <- !Z.lxor_assoc, Z.lxor_nilpotent, !Z.lxor_0_l in H. exact H.
Qed.

Lemma encode_differs c i k1 k2 k3 :
  is_byte c -> is_byte k1 -> is_byte k2 -> is_byte k3 ->
  Transform.encode 0xA5 c i k1 k2 k3 <> Transform.encode 0x5A c i k1 k2 k3.
Proof.
  intros Hc H1 H2 H3 E. unfold Transform.encode in E. cbv zeta in E.
  set (v := Transform.bitwise_complement _) in E.
  assert (Hv : is_byte v) by (subst v; auto 10 with byte).
  apply (f_equal (fun x => Transform.rotate_left_8 x ((i + k3) mod 8))) in E.
  rewrite !rotate_left_right in E by auto with byte.
  apply lxor_inj_l in E. discriminate E.
Qed.

(** C10 (the two headers).  [KeyGen::get] of [SecureString.hpp] and of
    [secure_string.hpp] return the same byte for every
    [(N, Seed, Round, index)].  With one key triple, [obfuscate] and
    [deobfuscate] of [secure_string.hpp] are the encode and decode
    pipeline with the stage-4 constant [0xA5], and those of
    [SecureString.hpp] the same pipeline with [0x5A]; in each header
    [deobfuscate] undoes that header's [obfuscate]; and the two
    [obfuscate] never return the same unit. *)
Theorem C10_variants_agree T N Seed c i :
  1 <= N -> variants_agree T N Seed c i.
Proof.
  intros HN. assert (HN0 : N <> 0) by lia.
  destruct (keys_exist N Seed i) as [k1 [k2 [k3 [H1 [H2 [H3 [B1 [B2 B3]]]]]]]].
  destruct (keys_exist_5A N Seed i)
    as [j1 [j2 [j3 [J1 [J2 [J3 _]]]]]].
  assert (Hj : j1 = k1 /\ j2 = k2 /\ j3 = k3).
  { rewrite (KeyGen_get_same N Seed 0 i) in J1.
    rewrite (KeyGen_get_same N _ 0 (Size_t.sub (Size_t.sub N i) 1)) in J2.
    rewrite (KeyGen_get_same N _ 0 (Size_t.mul i i mod N)) in J3.
    unfold Size_t.sub in J2. unfold U64.sub in H2.
    unfold Size_t.mul in J3. unfold U64.mul in H3.
    repeat split; congruence. }
  destruct Hj as [-> [-> ->]].
  pose proof (obfuscate_encode T N Seed c i k1 k2 k3 HN0 H1 H2 H3) as EA.
  pose proof (obfuscate_encode_5A T N Seed c i k1 k2 k3 HN0 J1 J2 J3) as EB.
  unfold variants_agree.
  split; [intros N' Seed' Round index; apply KeyGen_get_same|].
  split.
  { exists k1, k2, k3.
    split; [exact H1|]. split; [exact H2|]. split; [exact H3|].
    split; [exact EA|]. split; [exact EB|].
    split; [apply deobfuscate_decode; auto|].
    apply deobfuscate_decode_5A; auto. }
  split.
  { destruct (unit_roundtrip T N Seed c i HN0) as [e [He [_ Hb]]]. eauto. }
  split.
  { destruct (unit_roundtrip_5A T N Seed c i HN0) as [e [He [_ Hb]]]. eauto. }
  rewrite EA, EB. intros E. injection E as E.
  rewrite !to_CharT_byte in E
    by (apply encode_byte; auto with byte).
  revert E. apply encode_differs; auto with byte.
Qed.

(** The unit ['l'] at position 2 of six, seed 1. *)
Lemma C10_variants_agree_witness :
  1 <= 6 /\ variants_agree char 6 1 108 2.
Proof.
  split; [lia|]. apply (C10_variants_agree char 6 1 108 2). lia.
Defined.

(** * Further properties of the code *)

(** ** The rotation macros at every count *)






(** ** The mixer is a permutation of the 64-bit values *)

Lemma unshift33 x :
  U64.in_range x ->
  U64.in_range (Z.lxor x (Z.shiftr x 33))
  /\ Z.lxor (Z.lxor x (Z.shiftr x 33))
       (Z.shiftr (Z.lxor x (Z.shiftr x 33)) 33) = x.
Proof.
  unfold U64.in_range, U64.modulus. intros H.
  assert (Hs : 0 <= Z.shiftr x 33 < 2 ^ 64).
  { rewrite Z.shiftr_div_pow2 by lia. split.
    - apply Z.div_pos; lia.
    - apply Z.le_lt_trans with x; [|lia].
      apply Z.div_le_upper_bound; lia. }
  split; [apply (lxor_bound 64); lia|].
  rewrite Z.shiftr_lxor, Z.shiftr_shiftr by lia.
  replace (Z.shiftr x (33 + 33)) with 0.
  - rewrite Z.lxor_0_r. apply lxor_cancel.
  - rewrite Z.shiftr_div_pow2 by lia. symmetry.
    apply Z.div_small. change (2 ^ (33 + 33)) with (2 ^ 64 * 4). lia.
Qed.

Lemma mul_inverse c c' x :
  (c * c') mod U64.modulus = 1 ->
  U64.in_range x ->
  U64.mul (U64.mul x c) c' = x.
Proof.
  unfold U64.mul, U64.wrap, U64.in_range. intros Hc Hx.
  rewrite Z.mul_mod_idemp_l by (unfold U64.modulus; lia).
  rewrite <- Z.mul_assoc, <- Z.mul_mod_idemp_r, Hc, Z.mul_1_r
    by (unfold U64.modulus; lia).
  apply Z.mod_small. exact Hx.
Qed.

Lemma unmix_mix x :
  U64.in_range x -> unmix (secure_string_hpp.KeyGen.mix x) = x.
Proof.
  intros Hx. unfold unmix, secure_string_hpp.KeyGen.mix. cbv zeta.
  destruct (unshift33 x Hx) as [R1 E1].
  set (a := Z.lxor x (Z.shiftr x 33)) in *.
  set (b := U64.mul a 0xD6E8FEB86659FD93).
  assert (Hb : U64.in_range b) by apply wrap_range.
  destruct (unshift33 b Hb) as [R2 E2].
  set (c := Z.lxor b (Z.shiftr b 33)) in *.
  set (d := U64.mul c 0xA5CB3E2C1F16F4C5).
  assert (Hd : U64.in_range d) by apply wrap_range.
  destruct (unshift33 d Hd) as [R3 E3].
  rewrite E3. subst d.
  rewrite mul_inverse by (try exact R2; vm_compute; reflexivity).
  rewrite E2. subst b.
  rewrite mul_inverse by (try exact R1; vm_compute; reflexivity).
  exact E1.
Qed.

Lemma mix_unmix y :
  U64.in_range y -> secure_string_hpp.KeyGen.mix (unmix y) = y.
Proof.
  intros Hy. unfold unmix, secure_string_hpp.KeyGen.mix. cbv zeta.
  destruct (unshift33 y Hy) as [R1 E1].
  set (a := Z.lxor y (Z.shiftr y 33)) in *.
  set (b := U64.mul a 0x4BC5076D404C6A0D).
  assert (Hb : U64.in_range b) by apply wrap_range.
  destruct (unshift33 b Hb) as [R2 E2].
  set (c := Z.lxor b (Z.shiftr b 33)) in *.
  set (d := U64.mul c 0xCFEE444D8B59A89B).
  assert (Hd : U64.in_range d) by apply wrap_range.
  destruct (unshift33 d Hd) as [R3 E3].
  rewrite E3. subst d.
  rewrite mul_inverse by (try exact R2; vm_compute; reflexivity).
  rewrite E2. subst b.
  rewrite mul_inverse by (try exact R1; vm_compute; reflexivity).
  exact E1.
Qed.

(** [KeyGen::mix] maps the 64-bit values onto the 64-bit values one to
    one: its result is a 64-bit value, two different 64-bit arguments
    give two different results, and every 64-bit value is the result
    for one.  (Both multipliers are odd and each shift by 33 is undone
    by itself on 64 bits.)  Only [0] is mapped to [0]. *)
Theorem mix_permutes_u64 x y :
  U64.in_range x -> U64.in_range y ->
  U64.in_range (secure_string_hpp.KeyGen.mix x)
  /\ (secure_string_hpp.KeyGen.mix x = secure_string_hpp.KeyGen.mix y ->
      x = y)
  /\ (exists x', U64.in_range x' /\ secure_string_hpp.KeyGen.mix x' = y)
  /\ (secure_string_hpp.KeyGen.mix x = 0 <-> x = 0)
  /\ SecureString_hpp.KeyGen.mix x = secure_string_hpp.KeyGen.mix x.
Proof.
  intros Hx Hy.
  split; [apply mix_range|].
  split.
  { intros E. rewrite <- (unmix_mix x Hx), <- (unmix_mix y Hy), E.
    reflexivity. }
  split.
  { exists (unmix y). split; [|apply mix_unmix, Hy].
    unfold unmix. cbv zeta.
    set (d := U64.mul _ 0xCFEE444D8B59A89B).
    assert (Hd : U64.in_range d) by apply wrap_range.
    apply (unshift33 d Hd). }
  split.
  { split; intros E.
    - rewrite <- (unmix_mix x Hx), E. vm_compute. reflexivity.
    - rewrite E. vm_compute. reflexivity. }
  unfold SecureString_hpp.KeyGen.mix, secure_string_hpp.KeyGen.mix.
  reflexivity.
Qed.

(** Two seeds, 1 and 2. *)
Lemma mix_permutes_u64_witness :
  U64.in_range (secure_string_hpp.KeyGen.mix 1)
  /\ (secure_string_hpp.KeyGen.mix 1 = secure_string_hpp.KeyGen.mix 2 ->
      1 = 2)
  /\ (exists x', U64.in_range x' /\ secure_string_hpp.KeyGen.mix x' = 2)
  /\ (secure_string_hpp.KeyGen.mix 1 = 0 <-> 1 = 0)
  /\ SecureString_hpp.KeyGen.mix 1 = secure_string_hpp.KeyGen.mix 1.
Proof.
  apply (mix_permutes_u64 1 2); unfold U64.in_range, U64.modulus; lia.
Defined.

(** ** Ciphertext of one header under the other *)

Lemma check_bytes (p : Z -> bool) :
  forallb p bytes = true -> forall x, is_byte x -> p x = true.
Proof.
  intros H x Hx. rewrite forallb_forall in H.
  apply H. apply in_below. exact Hx.
Qed.

Lemma lxor_255 v : is_byte v -> Z.lxor v 255 = 255 - v.
Proof.
  intros Hv. apply Z.eqb_eq. revert v Hv.
  apply (check_bytes (fun v => Z.lxor v 255 =? 255 - v)).
  vm_compute. reflexivity.
Qed.

Lemma rotate_right_inj v w r :
  is_byte v -> is_byte w -> 0 <= r < 8 ->
  Transform.rotate_right_8 v r = Transform.rotate_right_8 w r -> v = w.
Proof.
  intros Hv Hw Hr E.
  rewrite <- (rotate_left_right v r), <- (rotate_left_right w r), E
    by assumption.
  reflexivity.
Qed.

(** Decoding with a stage-4 constant that differs from the encoding one
    in every bit never gives the byte back. *)
Lemma decode_other_constant K K' c i kA kB kC :
  Z.lxor K K' = 255 -> is_byte K -> is_byte K' ->
  is_byte c -> is_byte kA -> is_byte kB -> is_byte kC ->
  Transform.decode K' (Transform.encode K c i kA kB kC) i kA kB kC <> c.
Proof.
  intros HK BK BK' Hc HA HB HC E.
  unfold Transform.decode, Transform.encode in E. cbv zeta in E.
  set (w := Transform.rotate_left_8 (Z.lxor c kA) (kB mod 7 + 1)) in E.
  assert (Hw : is_byte w) by (subst w; auto with byte).
  set (kk := Z.lxor kB kC) in E.
  assert (Hkk : is_byte kk) by (subst kk; auto with byte).
  set (x := Transform.bitwise_complement ((w + kk) mod 256)) in E.
  assert (Hx : is_byte x) by (subst x; auto with byte).
  rewrite rotate_left_right in E by auto with byte.
  rewrite Z.lxor_assoc, HK, lxor_255 in E by exact Hx.
  set (V := (Transform.bitwise_complement (255 - x) - kk) mod 256) in E.
  assert (HV : is_byte V) by (subst V; auto with byte).
  apply (f_equal (fun t => Z.lxor t kA)) in E. rewrite lxor_cancel in E.
  apply (f_equal (fun t => Transform.rotate_left_8 t (kB mod 7 + 1))) in E.
  rewrite rotate_left_right in E by auto with byte.
  fold w in E. subst V x.
  unfold Transform.bitwise_complement, is_byte in *.
  revert E. Z.div_mod_to_equations. lia.
Qed.

Lemma unit_roundtrip_back_5A T N Seed d i :
  N <> 0 -> is_byte d ->
  exists c,
    SecureString_hpp.SecureString.deobfuscate T N Seed d i = Some c
    /\ is_byte c
    /\ SecureString_hpp.SecureString.obfuscate T N Seed c i = Some d.
Proof.
  intros HN Hd.
  destruct (keys_exist_5A N Seed i)
    as [k1 [k2 [k3 [H1 [H2 [H3 [B1 [B2 B3]]]]]]]].
  pose proof K_5A_byte as BK.
  assert (Bc : is_byte (Transform.decode 0x5A d i k1 k2 k3))
    by (apply decode_byte; auto with byte).
  eexists. split; [apply (deobfuscate_decode_5A T N Seed d i k1 k2 k3); auto|].
  rewrite (to_uchar_small d) by exact Hd.
  rewrite to_CharT_byte by exact Bc. split; [exact Bc|].
  rewrite (obfuscate_encode_5A T N Seed _ i k1 k2 k3) by auto.
  rewrite to_uchar_small by exact Bc.
  rewrite encode_decode by auto with byte.
  rewrite to_CharT_byte by exact Hd. reflexivity.
Qed.

(** The same key triple serves both headers. *)
Lemma keys_shared N Seed i :
  exists k1 k2 k3,
    (secure_string_hpp.KeyGen.get N Seed 0 i = Some k1
     /\ secure_string_hpp.KeyGen.get N (Z.lxor Seed 0xBAADF00DDEADC0DE) 0
          (U64.sub (U64.sub N i) 1) = Some k2
     /\ secure_string_hpp.KeyGen.get N (Z.lxor Seed 0xFEEDBABECAFED00D) 0
          (U64.mul i i mod N) = Some k3)
    /\ (SecureString_hpp.KeyGen.get N Seed 0 i = Some k1
        /\ SecureString_hpp.KeyGen.get N (Z.lxor Seed 0xBAADF00DDEADC0DE) 0
             (Size_t.sub (Size_t.sub N i) 1) = Some k2
        /\ SecureString_hpp.KeyGen.get N (Z.lxor Seed 0xFEEDBABECAFED00D) 0
             (Size_t.mul i i mod N) = Some k3)
    /\ is_byte k1 /\ is_byte k2 /\ is_byte k3.
Proof.
  destruct (keys_exist N Seed i) as [k1 [k2 [k3 [H1 [H2 [H3 HB]]]]]].
  exists k1, k2, k3. split; [auto|]. split; [|exact HB].
  repeat match goal with
    | |- context [SecureString_hpp.KeyGen.get ?a ?b ?c ?d] =>
        rewrite (KeyGen_get_same a b c d)
    end.
  unfold Size_t.sub, Size_t.mul. unfold U64.sub, U64.mul in H2, H3. auto.
Qed.

(** A byte obfuscated by one header and deobfuscated by the other, at
    the same position, length and seed: both calls return, and the
    result is never the byte that went in.  So an array built by
    [secure_string.hpp] and read by [decrypt] of [SecureString.hpp], or
    the other way round, comes out wrong in every unit. *)
Theorem headers_do_not_interoperate T N Seed c i :
  1 <= N -> is_byte c ->
  crossed secure_string_hpp.SecureString.obfuscate
    SecureString_hpp.SecureString.deobfuscate T N Seed c i
  /\ crossed SecureString_hpp.SecureString.obfuscate
       secure_string_hpp.SecureString.deobfuscate T N Seed c i.
Proof.
  intros HN Hc. assert (HN0 : N <> 0) by lia.
  destruct (keys_shared N Seed i)
    as [k1 [k2 [k3 [[H1 [H2 H3]] [[J1 [J2 J3]] [B1 [B2 B3]]]]]]].
  pose proof K_A5_byte as BA. pose proof K_5A_byte as BB.
  unfold crossed. split.
  - assert (Be : is_byte (Transform.encode 0xA5 c i k1 k2 k3))
      by (apply encode_byte; auto).
    eexists. eexists.
    split; [apply (obfuscate_encode T N Seed c i k1 k2 k3); auto|].
    rewrite (to_uchar_small c) by exact Hc.
    rewrite to_CharT_byte by exact Be.
    split; [apply (deobfuscate_decode_5A T N Seed _ i k1 k2 k3); auto|].
    rewrite to_uchar_small by exact Be.
    rewrite to_CharT_byte by (apply decode_byte; auto).
    split; [apply decode_byte; auto|].
    apply decode_other_constant; auto.
  - assert (Be : is_byte (Transform.encode 0x5A c i k1 k2 k3))
      by (apply encode_byte; auto).
    eexists. eexists.
    split; [apply (obfuscate_encode_5A T N Seed c i k1 k2 k3); auto|].
    rewrite (to_uchar_small c) by exact Hc.
    rewrite to_CharT_byte by exact Be.
    split; [apply (deobfuscate_decode T N Seed _ i k1 k2 k3); auto|].
    rewrite to_uchar_small by exact Be.
    rewrite to_CharT_byte by (apply decode_byte; auto).
    split; [apply decode_byte; auto|].
    apply decode_other_constant; auto.
Qed.

(** The unit ['l'] at position 2 of six, seed 1. *)
Lemma headers_do_not_interoperate_witness :
  crossed secure_string_hpp.SecureString.obfuscate
    SecureString_hpp.SecureString.deobfuscate char 6 1 108 2
  /\ crossed SecureString_hpp.SecureString.obfuscate
       secure_string_hpp.SecureString.deobfuscate char 6 1 108 2.
Proof.
  apply (headers_do_not_interoperate char 6 1 108 2);
    [lia|unfold is_byte; lia].
Defined.

(** ** [SecureString.hpp]: bijection and frame *)

(** In [SecureString.hpp] too, for every [N >= 1], seed and position,
    [obfuscate] maps the 256 byte values onto a permutation of the 256
    byte values, and [deobfuscate] at the same position is its inverse
    on both sides. *)
Theorem SecureString_hpp_permutes_bytes T N Seed i :
  1 <= N -> permutes_bytes_5A T N Seed i.
Proof.
  intros HN. assert (HN0 : N <> 0) by lia.
  unfold permutes_bytes_5A. cbv zeta.
  assert (Hf : forall c, is_byte c ->
    SecureString_hpp.SecureString.obfuscate T N Seed c i
    = Some (value (SecureString_hpp.SecureString.obfuscate T N Seed c i))
    /\ is_byte (value (SecureString_hpp.SecureString.obfuscate T N Seed c i))
    /\ value (SecureString_hpp.SecureString.deobfuscate T N Seed
                (value (SecureString_hpp.SecureString.obfuscate
                          T N Seed c i)) i) = c).
  { intros c Hc.
    destruct (unit_roundtrip_5A T N Seed c i HN0) as [e [He [Be Hback]]].
    rewrite He. cbn [value]. rewrite Hback. cbn [value].
    rewrite to_uchar_small by exact Hc. auto. }
  assert (Hg : forall d, is_byte d ->
    SecureString_hpp.SecureString.deobfuscate T N Seed d i
    = Some (value (SecureString_hpp.SecureString.deobfuscate T N Seed d i))
    /\ is_byte (value (SecureString_hpp.SecureString.deobfuscate
                         T N Seed d i))
    /\ value (SecureString_hpp.SecureString.obfuscate T N Seed
                (value (SecureString_hpp.SecureString.deobfuscate
                          T N Seed d i)) i) = d).
  { intros d Hd.
    destruct (unit_roundtrip_back_5A T N Seed d i HN0 Hd)
      as [c [Hc [Bc Hback]]].
    rewrite Hc. cbn [value]. rewrite Hback. cbn [value]. auto. }
  split; [intros c Hc; destruct (Hf c Hc) as [? [? _]]; auto|].
  split; [intros d Hd; destruct (Hg d Hd) as [? [? _]]; auto|].
  split.
  { apply Permutation_map_same_l.
    - apply Injective_map_NoDup_in; [|apply bytes_NoDup].
      intros x y Hx Hy E. apply in_bytes in Hx, Hy.
      destruct (Hf x Hx) as [_ [_ <-]]. destruct (Hf y Hy) as [_ [_ <-]].
      rewrite E. reflexivity.
    - intros y Hy. apply in_map_iff in Hy. destruct Hy as [x [<- Hx]].
      apply in_bytes in Hx. apply in_bytes. apply (Hf x Hx). }
  split; [intros c Hc; apply (Hf c Hc)|].
  intros d Hd; apply (Hg d Hd).
Qed.

(** Position 2 of a six-unit [char] literal, seed 1. *)
Lemma SecureString_hpp_permutes_bytes_witness :
  permutes_bytes_5A char 6 1 2.
Proof. apply (SecureString_hpp_permutes_bytes char 6 1 2). lia. Defined.

(** [decrypt] of [SecureString.hpp], for an object of [N >= 1] units and
    a destination of capacity at least [N]: it returns, writes
    [out[i] = deobfuscate(encrypted[i], i)] for [i] in [[0, N)], and
    leaves the rest of the destination, its length and [encrypted] as
    they were. *)
Theorem SecureString_hpp_decrypt_frame T N Seed m :
  1 <= N < U64.modulus ->
  Z.of_nat (length (encrypted m)) = N ->
  N <= Z.of_nat (length (out m)) ->
  decrypt_frame_5A T N Seed m.
Proof.
  intros HN HE HO. assert (HN0 : N <> 0) by lia.
  assert (HR : 0 <= N < U64.modulus) by lia.
  destruct (decrypt_loop N HR
              (SecureString_hpp.SecureString.deobfuscate T N Seed) m HE HO)
    as [m' [Hd [HEq [HL [HD HF]]]]].
  { intros c i _.
    destruct (deobfuscate_some_5A T N Seed c i HN0) as [d [Hd _]]. eauto. }
  exists m'. auto.
Qed.

(** The array built from "Hello" by [SecureString.hpp] with seed 1, and
    a destination of eight units. *)
Lemma SecureString_hpp_decrypt_frame_witness :
  decrypt_frame_5A char 6 1
    (mkMemory [139; 165; 21; 208; 163; 219] [1; 2; 3; 4; 5; 6; 7; 8]).
Proof.
  apply (SecureString_hpp_decrypt_frame char 6 1
           (mkMemory [139; 165; 21; 208; 163; 219]
              [1; 2; 3; 4; 5; 6; 7; 8])).
  - unfold U64.modulus. lia.
  - reflexivity.
  - simpl. lia.
Defined.

(** ** The two taps of [KeyGen::get] *)

Lemma mirror_index N i :
  0 <= i < N -> N < U64.modulus ->
  U64.add (U64.sub (U64.sub N i) 1) 0 = N - 1 - i.
Proof.
  intros Hi HN. rewrite sub_sub_1 by lia. unfold U64.add.
  rewrite Z.add_0_r. rewrite wrap_small by (unfold U64.in_range; lia). lia.
Qed.

Lemma lxor_pair k i j s :
  Z.lxor (Z.lxor (Z.lxor k i) s) (Z.lxor (Z.lxor k j) s) = Z.lxor i j.
Proof.
  apply Z.bits_inj'. intros n _. rewrite !Z.lxor_spec.
  destruct (Z.testbit k n), (Z.testbit i n), (Z.testbit j n),
    (Z.testbit s n); reflexivity.
Qed.

(** With round 0, as [SecureString] instantiates [KeyGen], the two taps
    [get_byte(index)] and [get_byte(N - index - 1)] of mirrored
    positions are the same pair, so they cancel: the values rotated at
    [i] and at [N - 1 - i] differ by [i xor (N - 1 - i)] whatever the
    seed and the mixer give.  At the middle position of an odd length
    ([2 i + 1 = N], which includes [N = 1]) the two taps are one and the
    same, and [get] returns [ROL8] of [i ^ (Seed & 0xFF)]. *)
Theorem mirrored_taps_cancel N Seed i :
  1 <= N < U64.modulus -> 0 <= i < N ->
  Z.lxor (secure_string_hpp.KeyGen.combined N Seed 0 i)
    (secure_string_hpp.KeyGen.combined N Seed 0 (N - 1 - i))
  = Z.lxor i (N - 1 - i)
  /\ (2 * i + 1 = N ->
      secure_string_hpp.KeyGen.get N Seed 0 i
      = secure_string_hpp.ROL8_u64 (Z.lxor i (Z.land Seed 0xFF))
          (i mod 8 + 1)).
Proof.
  intros HN Hi.
  assert (Hj : 0 <= N - 1 - i < N) by lia.
  assert (E1 : secure_string_hpp.KeyGen.combined N Seed 0 i
    = Z.lxor (Z.lxor
        (to_uchar (Z.lxor (secure_string_hpp.KeyGen.get_byte Seed 0 i)
                     (secure_string_hpp.KeyGen.get_byte Seed 0 (N - 1 - i))))
        i) (Z.land Seed 0xFF)).
  { unfold secure_string_hpp.KeyGen.combined. cbv zeta.
    rewrite mirror_index by lia. reflexivity. }
  assert (E2 : secure_string_hpp.KeyGen.combined N Seed 0 (N - 1 - i)
    = Z.lxor (Z.lxor
        (to_uchar (Z.lxor (secure_string_hpp.KeyGen.get_byte Seed 0 i)
                     (secure_string_hpp.KeyGen.get_byte Seed 0 (N - 1 - i))))
        (N - 1 - i)) (Z.land Seed 0xFF)).
  { unfold secure_string_hpp.KeyGen.combined. cbv zeta.
    rewrite mirror_index by lia.
    replace (N - 1 - (N - 1 - i)) with i by lia.
    rewrite (Z.lxor_comm (secure_string_hpp.KeyGen.get_byte Seed 0 (N - 1 - i))).
    reflexivity. }
  split.
  - rewrite E1, E2. apply lxor_pair.
  - intros Hmid. unfold secure_string_hpp.KeyGen.get.
    rewrite E1, rotation_value, Z.add_0_r.
    replace (N - 1 - i) with i by lia.
    rewrite Z.lxor_nilpotent.
    change (to_uchar 0) with 0. rewrite Z.lxor_0_l. reflexivity.
Qed.

(** The middle position of a seven-unit literal, seed 3. *)
Lemma mirrored_taps_cancel_witness :
  Z.lxor (secure_string_hpp.KeyGen.combined 7 3 0 3)
    (secure_string_hpp.KeyGen.combined 7 3 0 (7 - 1 - 3))
  = Z.lxor 3 (7 - 1 - 3)
  /\ (2 * 3 + 1 = 7 ->
      secure_string_hpp.KeyGen.get 7 3 0 3
      = secure_string_hpp.ROL8_u64 (Z.lxor 3 (Z.land 3 0xFF)) (3 mod 8 + 1)).
Proof.
  apply (mirrored_taps_cancel 7 3 3); [unfold U64.modulus; lia|lia].
Defined.

(** ** [KeyGen::get] at every index *)

Lemma rol_u64_split x s :
  0 <= s < 8 ->
  to_uchar (Z.lor (U64.wrap (Z.shiftl x s)) (Z.shiftr x (8 - s)))
  = Z.lor
      (to_uchar (Z.lor (U64.wrap (Z.shiftl (x mod 256) s))
                   (Z.shiftr (x mod 256) (8 - s))))
      (to_uchar (Z.shiftl (Z.shiftr x 8) s)).
Proof.
  intros Hs. unfold to_uchar, U64.wrap, U64.modulus.
  change 256 with (2 ^ 8).
  apply Z.bits_inj'. intros n Hn.
  destruct (Z.lt_ge_cases n 8) as [H8|H8].
  - rewrite Z.lor_spec.
    rewrite !(Z.mod_pow2_bits_low _ 8 n) by lia.
    rewrite !Z.lor_spec.
    rewrite !(Z.mod_pow2_bits_low _ 64 n) by lia.
    rewrite !Z.shiftl_spec, !Z.shiftr_spec by lia.
    destruct (Z.lt_ge_cases n s) as [Hns|Hns].
    + rewrite !(Z.testbit_neg_r _ (n - s)) by lia.
      rewrite Z.mod_pow2_bits_low by lia.
      rewrite orb_false_r. reflexivity.
    + rewrite (Z.mod_pow2_bits_low _ 8 (n - s)) by lia.
      rewrite (Z.mod_pow2_bits_high x 8 (n + (8 - s))) by lia.
      rewrite Z.shiftr_spec by lia.
      replace (n - s + 8) with (n + (8 - s)) by lia.
      rewrite orb_false_r. reflexivity.
  - rewrite Z.lor_spec.
    rewrite !(Z.mod_pow2_bits_high _ 8 n) by lia. reflexivity.
Qed.

Lemma ROL8_u64_value lo s :
  is_byte lo -> 0 <= s < 8 ->
  to_uchar (Z.lor (U64.wrap (Z.shiftl lo s)) (Z.shiftr lo (8 - s)))
  = Transform.rotate_left_8 lo s.
Proof.
  intros Hlo Hs.
  pose proof (ROL8_u64_rotate lo s Hlo) as H.
  unfold secure_string_hpp.ROL8_u64 in H.
  rewrite (Z.mod_small s 8) in H by lia.
  rewrite U64_shl_ok, U64_shr_ok in H by lia. cbn [bind] in H.
  specialize (H ltac:(lia)). injection H as H. exact H.
Qed.

Lemma combined_high N Seed Round index :
  Z.shiftr (secure_string_hpp.KeyGen.combined N Seed Round index) 8
  = Z.shiftr index 8.
Proof.
  unfold secure_string_hpp.KeyGen.combined. cbv zeta.
  rewrite !Z.shiftr_lxor, land_255.
  rewrite (shiftr_8_byte (to_uchar _)) by apply to_uchar_byte.
  rewrite (shiftr_8_byte (Seed mod 256)) by apply mod256_byte.
  rewrite Z.lxor_0_l, Z.lxor_0_r. reflexivity.
Qed.

Lemma land_lor_absorb a b : Z.land (Z.lor a b) b = b.
Proof.
  apply Z.bits_inj'. intros n _. rewrite Z.land_spec, Z.lor_spec.
  destruct (Z.testbit a n), (Z.testbit b n); reflexivity.
Qed.

(** [KeyGen::get] for every index, also beyond 255.  [ROL8] is applied to
    the 64-bit value [k ^ index ^ (Seed & 0xFF)], whose bits above the
    low byte are those of [index]; with [s] the count reduced modulo 8,
    the key byte is the left rotation by [s] of the low byte, OR-ed with
    the low byte of [(index / 256) * 2^s].  So it is the plain rotation
    when [index < 256], and for a longer literal every bit of
    [(index / 256) * 2^s] below bit 8 is set in the key byte whatever
    the seed. *)
Theorem get_at_any_index N Seed Round index :
  let x := secure_string_hpp.KeyGen.combined N Seed Round index in
  let s := secure_string_hpp.KeyGen.rotation Round index mod 8 in
  let high := (index / 256 * 2 ^ s) mod 256 in
  exists key,
    secure_string_hpp.KeyGen.get N Seed Round index = Some key
    /\ key = Z.lor (Transform.rotate_left_8 (x mod 256) s) high
    /\ Z.land key high = high
    /\ (index / 256 = 0 -> key = Transform.rotate_left_8 (x mod 256) s).
Proof.
  cbv zeta.
  pose proof (mod8_count (secure_string_hpp.KeyGen.rotation Round index))
    as Hs.
  set (s := secure_string_hpp.KeyGen.rotation Round index mod 8) in *.
  set (x := secure_string_hpp.KeyGen.combined N Seed Round index).
  assert (E : secure_string_hpp.KeyGen.get N Seed Round index
              = Some (Z.lor (Transform.rotate_left_8 (x mod 256) s)
                        ((index / 256 * 2 ^ s) mod 256))).
  { unfold secure_string_hpp.KeyGen.get, secure_string_hpp.ROL8_u64.
    fold s. fold x.
    rewrite U64_shl_ok, U64_shr_ok by lia. cbn [bind]. f_equal.
    rewrite rol_u64_split by exact Hs.
    rewrite ROL8_u64_value by (auto with byte).
    subst x. rewrite combined_high.
    rewrite Z.shiftr_div_pow2, Z.shiftl_mul_pow2 by lia.
    reflexivity. }
  eexists. split; [exact E|]. split; [reflexivity|].
  split; [apply land_lor_absorb|].
  intros H0. rewrite H0. rewrite Z.mul_0_l, Z.mod_0_l by lia.
  apply Z.lor_0_r.
Qed.

(** ** [decrypt] into a destination that is too short *)

Lemma for_loop_faults {S : Type} (N : Z) (body : Z -> S -> option S)
    (Inv : Z -> S -> Prop) (j : Z) :
  N < U64.modulus -> 0 <= j < N ->
  (forall i s, 0 <= i < j -> Inv i s ->
               exists s', body i s = Some s' /\ Inv (i + 1) s') ->
  (forall s, Inv j s -> body j s = None) ->
  forall fuel i s,
    0 <= i <= j -> Inv i s -> for_loop fuel N i body s = None.
Proof.
  intros HN Hj Hstep Hfail.
  induction fuel as [|fuel IH]; intros i s Hi HI; simpl;
    replace (i <? N) with true by (symmetry; apply Z.ltb_lt; lia);
    [reflexivity|].
  destruct (Z.eq_dec i j) as [->|Hne].
  - rewrite (Hfail s HI). reflexivity.
  - destruct (Hstep i s) as [s' [Hb HI']]; [lia|exact HI|].
    rewrite Hb. cbn [bind].
    replace (U64.add i 1) with (i + 1)
      by (unfold U64.add; rewrite wrap_small;
          [reflexivity|unfold U64.in_range; lia]).
    apply IH; [lia|exact HI'].
Qed.

Lemma store_out_of_bounds a i v :
  Z.of_nat (length a) <= i -> store a i v = None.
Proof.
  intros H. unfold store.
  replace (i <? Z.of_nat (length a)) with false
    by (symmetry; apply Z.ltb_ge; lia).
  rewrite andb_false_r. reflexivity.
Qed.

(** [decrypt] has no check of the destination: for an object of
    [N >= 1] units it faults (it writes past the end of [out]) exactly
    when the destination has fewer than [N] units, and then it returns
    nothing, not a shortened text. *)
Theorem decrypt_faults_iff_short T N Seed m :
  1 <= N < U64.modulus ->
  Z.of_nat (length (encrypted m)) = N ->
  (secure_string_hpp.SecureString.decrypt T N Seed m = None
   <-> Z.of_nat (length (out m)) < N)
  /\ (SecureString_hpp.SecureString.decrypt T N Seed m = None
      <-> Z.of_nat (length (out m)) < N).
Proof.
  intros HN HE. assert (HN0 : N <> 0) by lia.
  assert (HR : 0 <= N < U64.modulus) by lia.
  split; split.
  - intros Hnone.
    destruct (Z.lt_ge_cases (Z.of_nat (length (out m))) N) as [H|H];
      [exact H|].
    destruct (decrypt_loop N HR
                (secure_string_hpp.SecureString.deobfuscate T N Seed) m HE H)
      as [m' [Hd _]].
    { intros c i _. destruct (deobfuscate_some T N Seed c i HN0) as [d [Hd _]].
      eauto. }
    unfold secure_string_hpp.SecureString.decrypt in Hnone. congruence.
  - intros Hshort. unfold secure_string_hpp.SecureString.decrypt.
    apply (for_loop_faults N _
             (fun _ s => encrypted s = encrypted m
                         /\ length (out s) = length (out m))
             (Z.of_nat (length (out m)))); try lia; auto.
    + intros i s Hi [HEs HLs].
      destruct (load_some (encrypted m) i) as [e He]; [lia|].
      destruct (deobfuscate_some T N Seed e i HN0) as [d [Hd _]].
      rewrite HEs, He. cbn [bind]. rewrite Hd. cbn [bind].
      rewrite store_some by lia. cbn [bind].
      eexists. split; [reflexivity|]. cbn [encrypted out].
      rewrite update_length. auto.
    + intros s [HEs HLs].
      destruct (load (encrypted s) _) as [e|]; [|reflexivity]. cbn [bind].
      destruct (secure_string_hpp.SecureString.deobfuscate T N Seed e _)
        as [d|]; [|reflexivity]. cbn [bind].
      rewrite store_out_of_bounds by lia. reflexivity.
  - intros Hnone.
    destruct (Z.lt_ge_cases (Z.of_nat (length (out m))) N) as [H|H];
      [exact H|].
    destruct (decrypt_loop N HR
                (SecureString_hpp.SecureString.deobfuscate T N Seed) m HE H)
      as [m' [Hd _]].
    { intros c i _.
      destruct (deobfuscate_some_5A T N Seed c i HN0) as [d [Hd _]]. eauto. }
    unfold SecureString_hpp.SecureString.decrypt in Hnone. congruence.
  - intros Hshort. unfold SecureString_hpp.SecureString.decrypt.
    apply (for_loop_faults N _
             (fun _ s => encrypted s = encrypted m
                         /\ length (out s) = length (out m))
             (Z.of_nat (length (out m)))); try lia; auto.
    + intros i s Hi [HEs HLs].
      destruct (load_some (encrypted m) i) as [e He]; [lia|].
      destruct (deobfuscate_some_5A T N Seed e i HN0) as [d [Hd _]].
      rewrite HEs, He. cbn [bind]. rewrite Hd. cbn [bind].
      rewrite store_some by lia. cbn [bind].
      eexists. split; [reflexivity|]. cbn [encrypted out].
      rewrite update_length. auto.
    + intros s [HEs HLs].
      destruct (load (encrypted s) _) as [e|]; [|reflexivity]. cbn [bind].
      destruct (SecureString_hpp.SecureString.deobfuscate T N Seed e _)
        as [d|]; [|reflexivity]. cbn [bind].
      rewrite store_out_of_bounds by lia. reflexivity.
Qed.

(** A six-unit array and a destination of three units. *)
Lemma decrypt_faults_iff_short_witness :
  (secure_string_hpp.SecureString.decrypt char 6 1
     (mkMemory [116; 90; 234; 47; 92; 36] [0; 0; 0]) = None
   <-> Z.of_nat (length [0; 0; 0]) < 6)
  /\ (SecureString_hpp.SecureString.decrypt char 6 1
        (mkMemory [116; 90; 234; 47; 92; 36] [0; 0; 0]) = None
      <-> Z.of_nat (length [0; 0; 0]) < 6).
Proof.
  apply (decrypt_faults_iff_short char 6 1
           (mkMemory [116; 90; 234; 47; 92; 36] [0; 0; 0])).
  - unfold U64.modulus. lia.
  - reflexivity.
Defined.

(** ** The entry macros *)

Lemma firstn_whole (o : list Z) N :
  Z.of_nat (length o) = N -> firstn (Z.to_nat N) o = o.
Proof. intros H. apply firstn_all2. lia. Qed.

Lemma map_low_byte_fixed s :
  map (fun u => u mod 256) s = s <-> Forall is_byte s.
Proof.
  induction s as [|u s IH]; simpl.
  - split; auto.
  - split.
    + intros E. injection E as Eu Es. constructor.
      * unfold is_byte. pose proof (Z.mod_pos_bound u 256). lia.
      * apply IH, Es.
    + intros H. inversion H as [|? ? Hu Hs]; subst.
      rewrite (proj2 IH Hs), Z.mod_small by exact Hu. reflexivity.
Qed.

(** [ENC_STR], in both headers: for a literal of at least one unit
    (every literal has its terminator), a call returns the literal,
    whatever the static buffer held before the call.  So the first call,
    on the zeroed buffer, and every later one return the text, also
    after the caller has written into the returned buffer. *)
Theorem ENC_STR_returns_literal Seed s buf :
  1 <= Z.of_nat (length s) < U64.modulus ->
  Forall is_byte s ->
  length buf = length s ->
  secure_string_hpp_macros.ENC_STR Seed s buf = Some s
  /\ SecureString_hpp_macros.ENC_STR Seed s buf = Some s.
Proof.
  intros HN HB HL. split.
  - destruct (decrypt_ctor char (Z.of_nat (length s)) Seed s buf HN)
      as [e [o [Hc [_ [Hd [Ho Hf]]]]]]; [reflexivity|lia|].
    unfold secure_string_hpp_macros.ENC_STR. cbv zeta.
    rewrite Hc. cbn [bind]. rewrite Hd. cbn [bind out].
    rewrite firstn_whole, map_to_uchar_bytes in Hf by (auto; lia).
    congruence.
  - destruct (decrypt_ctor_5A char (Z.of_nat (length s)) Seed s buf HN)
      as [e [o [Hc [_ [Hd [Ho Hf]]]]]]; [reflexivity|lia|].
    unfold SecureString_hpp_macros.ENC_STR. cbv zeta.
    rewrite Hc. cbn [bind]. rewrite Hd. cbn [bind out].
    rewrite firstn_whole, map_to_uchar_bytes in Hf by (auto; lia).
    congruence.
Qed.

(** "Hello" with its terminator, seed 1, and a buffer the caller has
    overwritten. *)
Lemma ENC_STR_returns_literal_witness :
  secure_string_hpp_macros.ENC_STR 1 [72; 101; 108; 108; 111; 0]
    [9; 9; 9; 9; 9; 9] = Some [72; 101; 108; 108; 111; 0]
  /\ SecureString_hpp_macros.ENC_STR 1 [72; 101; 108; 108; 111; 0]
       [9; 9; 9; 9; 9; 9] = Some [72; 101; 108; 108; 111; 0].
Proof.
  apply (ENC_STR_returns_literal 1 [72; 101; 108; 108; 111; 0]
           [9; 9; 9; 9; 9; 9]).
  - unfold U64.modulus. simpl. lia.
  - repeat constructor; unfold is_byte; lia.
  - reflexivity.
Defined.

(** [ENC_WSTR], in both headers: a call returns the literal with every
    unit cut to its low byte, whatever the static buffer held; it
    returns the literal itself exactly when no unit of the literal is
    above 255. *)
Theorem ENC_WSTR_returns_low_bytes Seed s buf :
  1 <= Z.of_nat (length s) < U64.modulus ->
  length buf = length s ->
  secure_string_hpp_macros.ENC_WSTR Seed s buf
  = Some (map (fun u => u mod 256) s)
  /\ SecureString_hpp_macros.ENC_WSTR Seed s buf
     = Some (map (fun u => u mod 256) s)
  /\ (secure_string_hpp_macros.ENC_WSTR Seed s buf = Some s
      <-> Forall is_byte s)
  /\ (SecureString_hpp_macros.ENC_WSTR Seed s buf = Some s
      <-> Forall is_byte s).
Proof.
  intros HN HL.
  assert (EA : secure_string_hpp_macros.ENC_WSTR Seed s buf
               = Some (map (fun u => u mod 256) s)).
  { destruct (decrypt_ctor wchar_t (Z.of_nat (length s)) Seed s buf HN)
      as [e [o [Hc [_ [Hd [Ho Hf]]]]]]; [reflexivity|lia|].
    unfold secure_string_hpp_macros.ENC_WSTR. cbv zeta.
    rewrite Hc. cbn [bind]. rewrite Hd. cbn [bind out].
    rewrite firstn_whole in Hf by lia. rewrite Hf. reflexivity. }
  assert (EB : SecureString_hpp_macros.ENC_WSTR Seed s buf
               = Some (map (fun u => u mod 256) s)).
  { destruct (decrypt_ctor_5A wchar_t (Z.of_nat (length s)) Seed s buf HN)
      as [e [o [Hc [_ [Hd [Ho Hf]]]]]]; [reflexivity|lia|].
    unfold SecureString_hpp_macros.ENC_WSTR. cbv zeta.
    rewrite Hc. cbn [bind]. rewrite Hd. cbn [bind out].
    rewrite firstn_whole in Hf by lia. rewrite Hf. reflexivity. }
  split; [exact EA|]. split; [exact EB|].
  rewrite EA, EB. rewrite <- map_low_byte_fixed.
  split; split; intros H; congruence.
Qed.

(** The wide literal [{0x0416, 0}], seed 1. *)
Lemma ENC_WSTR_returns_low_bytes_witness :
  secure_string_hpp_macros.ENC_WSTR 1 [0x0416; 0] [0; 0]
  = Some (map (fun u => u mod 256) [0x0416; 0])
  /\ SecureString_hpp_macros.ENC_WSTR 1 [0x0416; 0] [0; 0]
     = Some (map (fun u => u mod 256) [0x0416; 0])
  /\ (secure_string_hpp_macros.ENC_WSTR 1 [0x0416; 0] [0; 0]
      = Some [0x0416; 0]
      <-> Forall is_byte [0x0416; 0])
  /\ (SecureString_hpp_macros.ENC_WSTR 1 [0x0416; 0] [0; 0]
      = Some [0x0416; 0]
      <-> Forall is_byte [0x0416; 0]).
Proof.
  apply (ENC_WSTR_returns_low_bytes 1 [0x0416; 0] [0; 0]).
  - unfold U64.modulus. simpl. lia.
  - reflexivity.
Defined.

(** ** Every byte array is a ciphertext *)

Lemma Forall_from_load (Q : Z -> Prop) l :
  (forall i, 0 <= i < Z.of_nat (length l) ->
             exists v, load l i = Some v /\ Q v) ->
  Forall Q l.
Proof.
  intros H. apply Forall_forall. intros x Hx.
  apply In_nth_error in Hx. destruct Hx as [n Hn].
  assert (Hlt : (n < length l)%nat)
    by (apply nth_error_Some; congruence).
  destruct (H (Z.of_nat n)) as [v [Hv Qv]]; [lia|].
  unfold load in Hv.
  replace (0 <=? Z.of_nat n) with true in Hv
    by (symmetry; apply Z.leb_le; lia).
  rewrite Nat2Z.id in Hv. congruence.
Qed.

(** The other direction of the round trip, in both headers: for every
    array [e] of [N >= 1] bytes, [decrypt] writes [N] bytes, and the
    constructor run on those bytes builds [e] again.  So every byte
    array of length [N] is the array of one byte literal. *)
Theorem constructor_undoes_decrypt T N Seed e out0 :
  1 <= N < U64.modulus ->
  Z.of_nat (length e) = N ->
  Forall is_byte e ->
  N <= Z.of_nat (length out0) ->
  reencrypts secure_string_hpp.SecureString.ctor
    secure_string_hpp.SecureString.decrypt T N Seed e out0
  /\ reencrypts SecureString_hpp.SecureString.ctor
       SecureString_hpp.SecureString.decrypt T N Seed e out0.
Proof.
  intros HN HE HB Hout. assert (HN0 : N <> 0) by lia.
  assert (HR : 0 <= N < U64.modulus) by lia.
  assert (Hbyte : forall i x, load e i = Some x -> is_byte x).
  { intros i x Hx. rewrite Forall_forall in HB. apply HB.
    unfold load in Hx. destruct (0 <=? i); [|discriminate].
    eapply nth_error_In; eauto. }
  unfold reencrypts. split.
  - destruct (decrypt_loop N HR
                (secure_string_hpp.SecureString.deobfuscate T N Seed)
                (mkMemory e out0))
      as [m' [Hd [HEq [HLo [HD HF]]]]];
      [cbn [encrypted]; lia|cbn [out]; exact Hout| |].
    { intros c i _. destruct (deobfuscate_some T N Seed c i HN0) as [d [H _]].
      eauto. }
    destruct m' as [e' o]. cbn [encrypted out] in *. subst e'.
    exists o. split; [exact Hd|].
    assert (HLf : Z.of_nat (length (firstn (Z.to_nat N) o)) = N)
      by (rewrite length_firstn; lia).
    assert (Hunit : forall i, 0 <= i < N ->
              exists x c, load e i = Some x
                          /\ load (firstn (Z.to_nat N) o) i = Some c
                          /\ is_byte c
                          /\ secure_string_hpp.SecureString.obfuscate
                               T N Seed c i = Some x).
    { intros i Hi. destruct (HD i Hi) as [x [Hx Ho]].
      destruct (unit_roundtrip_back T N Seed x i HN0 (Hbyte i x Hx))
        as [c [Hc [Bc Hback]]].
      exists x, c. rewrite load_firstn by lia. rewrite Ho. auto. }
    split.
    + apply Forall_from_load. intros i Hi.
      destruct (Hunit i) as [x [c [_ [Hc [Bc _]]]]]; [lia|]. eauto.
    + destruct (ctor_loop N HR
                  (secure_string_hpp.SecureString.obfuscate T N Seed)
                  (firstn (Z.to_nat N) o) HLf)
        as [e2 [Hc2 [HL2 He2]]].
      { intros c i _.
        destruct (unit_roundtrip T N Seed c i HN0) as [x [Hx _]]. eauto. }
      fold (secure_string_hpp.SecureString.ctor T N Seed
              (firstn (Z.to_nat N) o)) in Hc2.
      rewrite Hc2. f_equal. apply load_ext; [lia|].
      intros i Hi.
      destruct (He2 i) as [c [Hc Hl]]; [lia|].
      destruct (Hunit i) as [x [c' [Hx [Hc' [_ Hobf]]]]]; [lia|].
      congruence.
  - destruct (decrypt_loop N HR
                (SecureString_hpp.SecureString.deobfuscate T N Seed)
                (mkMemory e out0))
      as [m' [Hd [HEq [HLo [HD HF]]]]];
      [cbn [encrypted]; lia|cbn [out]; exact Hout| |].
    { intros c i _.
      destruct (deobfuscate_some_5A T N Seed c i HN0) as [d [H _]]. eauto. }
    destruct m' as [e' o]. cbn [encrypted out] in *. subst e'.
    exists o. split; [exact Hd|].
    assert (HLf : Z.of_nat (length (firstn (Z.to_nat N) o)) = N)
      by (rewrite length_firstn; lia).
    assert (Hunit : forall i, 0 <= i < N ->
              exists x c, load e i = Some x
                          /\ load (firstn (Z.to_nat N) o) i = Some c
                          /\ is_byte c
                          /\ SecureString_hpp.SecureString.obfuscate
                               T N Seed c i = Some x).
    { intros i Hi. destruct (HD i Hi) as [x [Hx Ho]].
      destruct (unit_roundtrip_back_5A T N Seed x i HN0 (Hbyte i x Hx))
        as [c [Hc [Bc Hback]]].
      exists x, c. rewrite load_firstn by lia. rewrite Ho. auto. }
    split.
    + apply Forall_from_load. intros i Hi.
      destruct (Hunit i) as [x [c [_ [Hc [Bc _]]]]]; [lia|]. eauto.
    + destruct (ctor_loop N HR
                  (SecureString_hpp.SecureString.obfuscate T N Seed)
                  (firstn (Z.to_nat N) o) HLf)
        as [e2 [Hc2 [HL2 He2]]].
      { intros c i _.
        destruct (unit_roundtrip_5A T N Seed c i HN0) as [x [Hx _]]. eauto. }
      fold (SecureString_hpp.SecureString.ctor T N Seed
              (firstn (Z.to_nat N) o)) in Hc2.
      rewrite Hc2. f_equal. apply load_ext; [lia|].
      intros i Hi.
      destruct (He2 i) as [c [Hc Hl]]; [lia|].
      destruct (Hunit i) as [x [c' [Hx [Hc' [_ Hobf]]]]]; [lia|].
      congruence.
Qed.

(** An array of three bytes, seed 5, and a destination of four units. *)
Lemma constructor_undoes_decrypt_witness :
  reencrypts secure_string_hpp.SecureString.ctor
    secure_string_hpp.SecureString.decrypt char 3 5 [0; 255; 17] [0; 0; 0; 0]
  /\ reencrypts SecureString_hpp.SecureString.ctor
       SecureString_hpp.SecureString.decrypt char 3 5 [0; 255; 17]
       [0; 0; 0; 0].
Proof.
  apply (constructor_undoes_decrypt char 3 5 [0; 255; 17] [0; 0; 0; 0]).
  - unfold U64.modulus. lia.
  - reflexivity.
  - repeat constructor; unfold is_byte; lia.
  - simpl. lia.
Defined.

(** ** A literal of one unit *)

Lemma get_single S :
  secure_string_hpp.KeyGen.get 1 S 0 0
  = secure_string_hpp.ROL8_u64 (Z.land S 0xFF) 1.
Proof.
  unfold secure_string_hpp.KeyGen.get, secure_string_hpp.KeyGen.combined.
  cbv zeta.
  replace (U64.add (U64.sub (U64.sub 1 0) 1) 0) with 0 by reflexivity.
  rewrite Z.lxor_nilpotent. change (to_uchar 0) with 0.
  rewrite Z.lxor_0_r, Z.lxor_0_l.
  replace (secure_string_hpp.KeyGen.rotation 0 0) with 1 by reflexivity.
  reflexivity.
Qed.

Lemma low_byte_of_lxor S K : Z.land (Z.lxor S K) 0xFF = Z.lxor (S mod 256) (K mod 256).
Proof.
  rewrite <- !land_255.
  apply Z.bits_inj'. intros n _.
  rewrite !Z.land_spec, !Z.lxor_spec, !Z.land_spec.
  destruct (Z.testbit S n), (Z.testbit K n), (Z.testbit 255 n); reflexivity.
Qed.

Lemma get_single_low_byte S S' K :
  S mod 256 = S' mod 256 ->
  secure_string_hpp.KeyGen.get 1 (Z.lxor S K) 0 0
  = secure_string_hpp.KeyGen.get 1 (Z.lxor S' K) 0 0.
Proof.
  intros E. rewrite !get_single, !low_byte_of_lxor, E. reflexivity.
Qed.

(** A literal of one unit (the empty string with its terminator): the
    three key bytes are taken at index 0, where the two taps of [get]
    cancel, so [obfuscate] and [deobfuscate] depend on the seed through
    its low byte alone.  Two seeds with the same low byte give the same
    ciphertext; there are at most 256 encodings of the one unit. *)
Theorem single_unit_uses_low_seed_byte T Seed Seed' c :
  Seed mod 256 = Seed' mod 256 ->
  secure_string_hpp.SecureString.obfuscate T 1 Seed c 0
  = secure_string_hpp.SecureString.obfuscate T 1 Seed' c 0
  /\ secure_string_hpp.SecureString.deobfuscate T 1 Seed c 0
     = secure_string_hpp.SecureString.deobfuscate T 1 Seed' c 0.
Proof.
  intros E.
  assert (E0 : secure_string_hpp.KeyGen.get 1 Seed 0 0
               = secure_string_hpp.KeyGen.get 1 Seed' 0 0).
  { rewrite <- (Z.lxor_0_r Seed), <- (Z.lxor_0_r Seed').
    apply get_single_low_byte, E. }
  unfold secure_string_hpp.SecureString.obfuscate,
    secure_string_hpp.SecureString.deobfuscate.
  replace (U64.sub (U64.sub 1 0) 1) with 0 by reflexivity.
  replace (U64.rem (U64.mul 0 0) 1) with (Some 0) by reflexivity.
  cbn [bind].
  rewrite E0.
  rewrite (get_single_low_byte Seed Seed' 0xBAADF00DDEADC0DE E).
  rewrite (get_single_low_byte Seed Seed' 0xFEEDBABECAFED00D E).
  split; reflexivity.
Qed.

(** The seeds [0x1234] and [0xFF34]. *)
Lemma single_unit_uses_low_seed_byte_witness :
  secure_string_hpp.SecureString.obfuscate char 1 0x1234 0 0
  = secure_string_hpp.SecureString.obfuscate char 1 0xFF34 0 0
  /\ secure_string_hpp.SecureString.deobfuscate char 1 0x1234 0 0
     = secure_string_hpp.SecureString.deobfuscate char 1 0xFF34 0 0.
Proof.
  apply (single_unit_uses_low_seed_byte char 0x1234 0xFF34 0). reflexivity.
Defined.
